(** * m2v: images/CBZ -> narrated Ken Burns video

    A shallow embedding of [m2v.py] and the properties of its media
    assembly pipeline: frame normalisation ([make_frames],
    [ensure_even_dimensions]), the zoom/pan expressions handed to the
    compositor ([build_video_with_kenburns]) and the order of the stages
    in [main]. *)

From Stdlib Require Import ZArith QArith Qabs Qround Qminmax Qpower Lia Lqa List.
From Stdlib Require Import Ascii String.
From Stdlib Require Import Sorted.
From stdpp Require Import base option list gmap strings.

Local Open Scope Z_scope.

(* ===================================================================== *)
(** * Part I: definitions *)
(* ===================================================================== *)

(** ** Python numbers *)

(** Python's [float] is IEEE-754 binary64.  A finite float is represented
    by the rational it denotes; the code only divides, multiplies,
    compares, rounds and truncates floats, and each of these is defined
    exactly on rationals below. *)
Module Binary64.

(** [2^k] for any integer [k]. *)
Definition pow2 (k : Z) : Q :=
  if 0 <=? k then inject_Z (2 ^ k) else (1 / inject_Z (2 ^ (- k)))%Q.

(** Nearest integer, ties to the even one. *)
Definition round_half_even (q : Q) : Z :=
  let n := Qnum q in
  let d := Zpos (Qden q) in
  let f := n / d in
  match (2 * (n mod d)) ?= d with
  | Lt => f
  | Gt => f + 1
  | Eq => if Z.even f then f else f + 1
  end.

(** [floor (log2 q)] for [q > 0]. *)
Definition ilog2 (q : Q) : Z :=
  let e0 := Z.log2 (Qnum q) - Z.log2 (Zpos (Qden q)) in
  if Qle_bool (pow2 e0) q then e0 else e0 - 1.

(** Round a positive rational to 53 significant bits (to the subnormal
    grid below [2^-1022]), ties to even. *)
Definition round_pos (q : Q) : Q :=
  let e := Z.max (ilog2 q - 52) (-1074) in
  Qred (inject_Z (round_half_even (q / pow2 e)) * pow2 e).

Definition round (q : Q) : Q :=
  match Qnum q with
  | Z0 => 0%Q
  | Zpos _ => round_pos q
  | Zneg _ => Qopp (round_pos (Qopp q))
  end.

(** The rounded magnitude does not fit: the operation yields an
    infinity. *)
Definition overflows (r : Q) : bool := Qle_bool (pow2 1024) (Qabs r).

End Binary64.

Inductive pyfloat : Type :=
  | Finite (q : Q)
  | Infinity (negative : bool)
  | NaN.

Inductive exn : Type :=
  | ZeroDivisionError
  | OverflowError
  | ValueError (msg : string)
  | SystemError (msg : string)
  | FileNotFoundError (path : string)
  | UnidentifiedImageError (path : string).

(** How a piece of the program ends: normally, through [die] (message on
    stderr, [sys.exit(1)]), or with an exception nobody catches. *)
Inductive outcome (A : Type) : Type :=
  | Ok (a : A)
  | Exit (msg : string)
  | Raise (e : exn).
Arguments Ok {A} a.
Arguments Exit {A} msg.
Arguments Raise {A} e.

Definition outcome_bind {A B} (m : outcome A) (k : A -> outcome B) : outcome B :=
  match m with
  | Ok a => k a
  | Exit msg => Exit msg
  | Raise e => Raise e
  end.

#[global] Instance outcome_ret : MRet outcome := fun _ a => Ok a.
#[global] Instance outcome_mbind : MBind outcome :=
  fun _ _ k m => outcome_bind m k.

Module Py.

(** The float nearest to a rational. *)
Definition of_Q (q : Q) : pyfloat :=
  let r := Binary64.round q in
  if Binary64.overflows r then Infinity (negb (Qle_bool 0 r)) else Finite r.

Definition is_zero (q : Q) : bool := Qeq_bool q 0.
Definition is_neg (q : Q) : bool := negb (Qle_bool 0 q).

(** [a * b] on floats. *)
Definition fmul (a b : pyfloat) : pyfloat :=
  match a, b with
  | NaN, _ | _, NaN => NaN
  | Finite x, Finite y => of_Q (x * y)
  | Infinity s, Finite y | Finite y, Infinity s =>
      if is_zero y then NaN else Infinity (xorb s (is_neg y))
  | Infinity s, Infinity t => Infinity (xorb s t)
  end.

(** [a < b] on floats; every comparison with a NaN is false. *)
Definition flt (a b : pyfloat) : bool :=
  match a, b with
  | NaN, _ | _, NaN => false
  | Finite x, Finite y => negb (Qle_bool y x)
  | Finite _, Infinity s => negb s
  | Infinity s, Finite _ => s
  | Infinity s, Infinity t => s && negb t
  end.

(** The builtins [max(a, b)] and [min(a, b)]: the first argument unless
    the second is strictly larger (smaller). *)
Definition max (a b : pyfloat) : pyfloat := if flt a b then b else a.
Definition min (a b : pyfloat) : pyfloat := if flt b a then b else a.

(** [float(n)] for an int, as done implicitly in [n * x]. *)
Definition float_of_int (n : Z) : outcome pyfloat :=
  match of_Q (inject_Z n) with
  | Finite q => Ok (Finite q)
  | _ => Raise OverflowError
  end.

(** [a / b] on ints: true division, correctly rounded. *)
Definition truediv (a b : Z) : outcome pyfloat :=
  if b =? 0 then Raise ZeroDivisionError
  else match of_Q (inject_Z a / inject_Z b) with
       | Finite q => Ok (Finite q)
       | _ => Raise OverflowError
       end.

(** [n * x] with [n] an int and [x] a float. *)
Definition int_mul_float (n : Z) (x : pyfloat) : outcome pyfloat :=
  f ← float_of_int n; Ok (fmul f x).

(** [x * n] with [x] a float and [n] an int. *)
Definition float_mul_int (x : pyfloat) (n : Z) : outcome pyfloat :=
  f ← float_of_int n; Ok (fmul x f).

(** [int(x)]: truncation towards zero. *)
Definition int_of_float (x : pyfloat) : outcome Z :=
  match x with
  | Finite q => Ok (Z.quot (Qnum q) (Zpos (Qden q)))
  | Infinity _ => Raise OverflowError
  | NaN => Raise (ValueError "cannot convert float NaN to integer")
  end.

(** [round(x)] with one argument: an int, ties to even. *)
Definition round (x : pyfloat) : outcome Z :=
  match x with
  | Finite q => Ok (Binary64.round_half_even q)
  | Infinity _ => Raise OverflowError
  | NaN => Raise (ValueError "cannot convert float NaN to integer")
  end.

End Py.

(** ** Strings and paths *)

Module Str.

Local Open Scope string_scope.

Definition digit_char (d : Z) : ascii := ascii_of_nat (48 + Z.to_nat d).

(** Decimal digits of a non-negative int, most significant first. *)
Fixpoint digits_fuel (fuel : nat) (n : Z) : string :=
  match fuel with
  | O => ""
  | S fuel' =>
      if (n <? 10)%Z then String (digit_char n) ""
      else digits_fuel fuel' (n / 10) ++ String (digit_char (n mod 10)) ""
  end.

Definition digits (n : Z) : string :=
  digits_fuel (S (Z.to_nat (Z.log2 n))) n.

(** [str(n)] for an int. *)
Definition of_int (n : Z) : string :=
  if (n <? 0)%Z then "-" ++ digits (- n) else digits n.

Fixpoint zeros (k : nat) : string :=
  match k with
  | O => ""
  | S k' => String "0" (zeros k')
  end.

(** [format(n, "05d")]: at least five characters, zeros between the
    sign and the digits. *)
Definition format_05d (n : Z) : string :=
  if (n <? 0)%Z
  then let s := digits (- n) in "-" ++ zeros (4 - String.length s)%nat ++ s
  else let s := digits n in zeros (5 - String.length s)%nat ++ s.

(** [" ".join(words)] *)
Definition join (words : list string) : string := String.concat " " words.

(** [dir / name] of pathlib, for a relative [name]. *)
Definition path_join (dir name : string) : string := dir ++ "/" ++ name.

(** [s.startswith(c)] for a single character. *)
Definition starts_with (c : ascii) (s : string) : bool :=
  match s with
  | String a _ => Ascii.eqb a c
  | "" => false
  end.


End Str.

(** ** Rasters and the imaging library *)

Definition rgb : Type := Z * Z * Z.
Definition black : rgb := (0, 0, 0).

(** A decoded image: its size and the colour at each coordinate, [x]
    counted from the left and [y] from the top. *)
Record image : Type := mk_image {
  width : Z;
  height : Z;
  pixel : Z -> Z -> rgb
}.

Definition inside (im : image) (x y : Z) : bool :=
  (0 <=? x) && (x <? width im) && (0 <=? y) && (y <? height im).

(** The calls into Pillow that the program makes.  What the Lanczos
    filter computes is left open ([lanczos]); sizes, boxes and failures
    are the library's. *)
Module PIL.

Local Open Scope string_scope.

Section Resampling.

Variable lanczos : image -> Z -> Z -> Z -> Z -> rgb.

(** [im.resize((sw, sh), Image.LANCZOS)] *)
Definition resize (im : image) (sw sh : Z) : outcome image :=
  if ((sw =? width im) && (sh =? height im))%Z then Ok im
  else if ((sw <? 1) || (sh <? 1))%Z
  then Raise (ValueError "height and width must be > 0")
  else Ok {| width := sw; height := sh; pixel := lanczos im sw sh |}.

End Resampling.

(** [im.convert("RGB")]: pixels are RGB triples already. *)
Definition convert_rgb (im : image) : image := im.

(** [im.crop((left, upper, right, lower))]; what lies outside the
    source is filled with zeros. *)
Definition crop (im : image) (left upper right lower : Z) : outcome image :=
  if (right <? left)%Z
  then Raise (ValueError "Coordinate 'right' is less than 'left'")
  else if (lower <? upper)%Z
  then Raise (ValueError "Coordinate 'lower' is less than 'upper'")
  else Ok {| width := right - left;
             height := lower - upper;
             pixel := fun x y =>
               if inside im (x + left) (y + upper)
               then pixel im (x + left) (y + upper)
               else black |}.

(** [Image.new("RGB", (w, h), color)] *)
Definition new (w h : Z) (color : rgb) : outcome image :=
  if ((w <? 0) || (h <? 0))%Z
  then Raise (ValueError "Width and height must be >= 0")
  else Ok {| width := w; height := h; pixel := fun _ _ => color |}.

(** [canvas.paste(im, (left, top))], as the new value of [canvas]. *)
Definition paste (canvas im : image) (left top : Z) : image :=
  {| width := width canvas;
     height := height canvas;
     pixel := fun x y =>
       if inside im (x - left) (y - top)
       then pixel im (x - left) (y - top)
       else pixel canvas x y |}.

End PIL.

(** ** Files, events and the pipeline monad *)

Inductive file : Type :=
  | Raster (im : image)      (* a decodable image *)
  | Text (content : string)
  | Blob.                    (* anything else: audio, video, archives *)

(** What the program does to the outside world, in order. *)
Inductive event : Type :=
  | EvProbe (cmd : list string)
  | EvMkdir (path : string)
  | EvMkdtemp (path : string)
  | EvExtract (archive dest : string)
  | EvOpen (path : string)
  | EvSave (path : string)
  | EvSynth (out : string)
  | EvRun (cmd : list string)
  | EvUnlink (path : string)
  | EvRmtree (path : string).

Record world : Type := mk_world {
  fs : gmap string file;
  log : list event
}.

Definition M (A : Type) : Type := world -> world * outcome A.

Definition M_ret {A} (a : A) : M A := fun w => (w, Ok a).

Definition M_bind {A B} (m : M A) (k : A -> M B) : M B :=
  fun w =>
    match m w with
    | (w', Ok a) => k a w'
    | (w', Exit msg) => (w', Exit msg)
    | (w', Raise e) => (w', Raise e)
    end.

#[global] Instance M_mret : MRet M := @M_ret.
#[global] Instance M_mbind : MBind M := fun _ _ k m => M_bind m k.

Definition lift {A} (o : outcome A) : M A := fun w => (w, o).

Definition emit (e : event) : M unit :=
  fun w => ({| fs := fs w; log := log w ++ [e] |}, Ok tt).

(** [die(msg)]: the message goes to stderr and the process exits with
    status 1. *)
Definition die {A} (msg : string) : M A := lift (Exit msg).

(** [Image.open(path)], decoded. *)
Definition image_open (path : string) : M image :=
  fun w =>
    let w' := {| fs := fs w; log := log w ++ [EvOpen path] |} in
    match fs w !! path with
    | Some (Raster im) => (w', Ok im)
    | Some _ => (w', Raise (UnidentifiedImageError path))
    | None => (w', Raise (FileNotFoundError path))
    end.

(** [im.save(path)] in a lossless format.  The encoder refuses an image
    without pixels; the file, opened for writing by then, is removed if
    it was new and left truncated if it was not. *)
Definition image_save (im : image) (path : string) : M unit :=
  fun w =>
    if (width im <? 1) || (height im <? 1) then
      ({| fs := match fs w !! path with
                | Some _ => <[path := Blob]> (fs w)
                | None => fs w
                end;
          log := log w |},
       Raise (SystemError "tile cannot extend outside image"))
    else
      ({| fs := <[path := Raster im]> (fs w);
          log := log w ++ [EvSave path] |}, Ok tt).

(** ** Frame normalisation: [ensure_even_dimensions], [make_frames] *)

Definition ensure_even_dimensions (img_path : string) : M unit :=
  im ← image_open img_path;
  let w := width im in
  let h := height im in
  let nw := (w / 2) * 2 in
  let nh := (h / 2) * 2 in
  if (nw =? w) && (nh =? h) then mret tt
  else
    im' ← lift (PIL.crop im 0 0 nw nh);
    image_save im' img_path.

Definition frame_name (i : Z) : string :=
  ("frame_" ++ Str.format_05d i ++ ".png")%string.

Definition even_msg : string := "Target width/height must be even numbers.".

Section Frames.

Variable lanczos : image -> Z -> Z -> Z -> Z -> rgb.

(** [int(w * scale), int(h * scale)] *)
Definition scaled_size (w h : Z) (scale : pyfloat) : outcome (Z * Z) :=
  a ← Py.int_mul_float w scale;
  sw ← Py.int_of_float a;
  b ← Py.int_mul_float h scale;
  sh ← Py.int_of_float b;
  Ok (sw, sh).


(** The [fit == "cover"] branch: scale, then crop to fill. *)
Definition fit_cover (im : image) (target_w target_h : Z) : outcome image :=
  let w := width im in
  let h := height im in
  rw ← Py.truediv target_w w;
  rh ← Py.truediv target_h h;
  let scale := Py.max rw rh in
  '(sw, sh) ← scaled_size w h scale;
  im ← PIL.resize lanczos im sw sh;
  let left := (sw - target_w) / 2 in
  let top := (sh - target_h) / 2 in
  PIL.crop im left top (left + target_w) (top + target_h).

(** The other branch: scale, then paste on a black canvas. *)
Definition fit_contain (im : image) (target_w target_h : Z) : outcome image :=
  let w := width im in
  let h := height im in
  rw ← Py.truediv target_w w;
  rh ← Py.truediv target_h h;
  let scale := Py.min rw rh in
  '(sw, sh) ← scaled_size w h scale;
  im_resized ← PIL.resize lanczos im sw sh;
  canvas ← PIL.new target_w target_h black;
  let left := (target_w - sw) / 2 in
  let top := (target_h - sh) / 2 in
  Ok (PIL.paste canvas im_resized left top).

Definition fit_image (fit : string) (im : image) (target_w target_h : Z)
  : outcome image :=
  if String.eqb fit "cover" then fit_cover im target_w target_h
  else fit_contain im target_w target_h.

(** One turn of the loop of [make_frames], for the [i]-th image. *)
Definition make_frame (frames_dir : string) (target_w target_h : Z)
    (fit : string) (i : Z) (img : string) : M unit :=
  let out := Str.path_join frames_dir (frame_name i) in
  im ← image_open img;
  let im := PIL.convert_rgb im in
  im ← lift (fit_image fit im target_w target_h);
  _ ← (if negb (target_w mod 2 =? 0) || negb (target_h mod 2 =? 0)
       then die even_msg else mret tt);
  _ ← image_save im out;
  ensure_even_dimensions out.

(** [for i, img in enumerate(images, start=i)] *)
Fixpoint frames_loop (frames_dir : string) (target_w target_h : Z)
    (fit : string) (i : Z) (images : list string) : M unit :=
  match images with
  | [] => mret tt
  | img :: rest =>
      _ ← make_frame frames_dir target_w target_h fit i img;
      frames_loop frames_dir target_w target_h fit (i + 1) rest
  end.

Definition make_frames (images : list string) (frames_dir : string)
    (target_w target_h : Z) (fit : string) : M unit :=
  _ ← emit (EvMkdir frames_dir);
  frames_loop frames_dir target_w target_h fit 1 images.

End Frames.

(** ** The compositor's expression language

    The zoom and pan formulas are handed to the compositor as text.  This
    is the fragment of its expression grammar that the program emits:
    sums, products, unary signs, parentheses, decimal numbers, variables
    and the functions [if] and [lte].  A replacement field [{name}] of a
    Python f-string is read as one operand. *)
Module Expr.

Local Open Scope string_scope.

Inductive token : Type :=
  | TNum (q : Q)
  | TIdent (name : string)
  | TField (name : string)
  | TPlus | TMinus | TStar | TSlash
  | TLParen | TRParen | TComma.

Inductive expr : Type :=
  | Num (q : Q)
  | Field (name : string)
  | Var (name : string)
  | Neg (e : expr)
  | Add (a b : expr)
  | Sub (a b : expr)
  | Mul (a b : expr)
  | Div (a b : expr)
  | Lte (a b : expr)
  | If (c a b : expr).

Definition is_digit (c : ascii) : bool :=
  let n := N_of_ascii c in (48 <=? n)%N && (n <=? 57)%N.

Definition is_letter (c : ascii) : bool :=
  let n := N_of_ascii c in
  ((97 <=? n)%N && (n <=? 122)%N) || ((65 <=? n)%N && (n <=? 90)%N)
  || (n =? 95)%N.

Definition is_space (c : ascii) : bool :=
  let n := N_of_ascii c in (n =? 32)%N || ((9 <=? n)%N && (n <=? 13)%N).

(** The compositor drops all white space before it parses. *)
Fixpoint strip_spaces (s : string) : string :=
  match s with
  | "" => ""
  | String c r => if is_space c then strip_spaces r else String c (strip_spaces r)
  end.

(** Longest prefix of characters satisfying [p], and the rest. *)
Fixpoint span (p : ascii -> bool) (s : string) : string * string :=
  match s with
  | "" => ("", "")
  | String c r =>
      if p c then let '(a, b) := span p r in (String c a, b) else ("", s)
  end.

Fixpoint digits_value (s : string) (acc : Z) : Z :=
  match s with
  | "" => acc
  | String c r => digits_value r (10 * acc + (Z.of_N (N_of_ascii c) - 48))
  end.

(** Value of the decimal literal [int_part.frac_part]. *)
Definition decimal_value (int_part frac_part : string) : Q :=
  Qred (inject_Z (digits_value (int_part ++ frac_part) 0)
        / inject_Z (10 ^ Z.of_nat (String.length frac_part))).

Fixpoint lex (fuel : nat) (s : string) : option (list token) :=
  match fuel with
  | O => match s with "" => Some [] | _ => None end
  | S fuel' =>
      match s with
      | "" => Some []
      | String c r =>
          if is_digit c then
            let '(ip, r1) := span is_digit s in
            match r1 with
            | String "." r2 =>
                let '(fp, r3) := span is_digit r2 in
                cons (TNum (decimal_value ip fp)) <$> lex fuel' r3
            | _ => cons (TNum (decimal_value ip "")) <$> lex fuel' r1
            end
          else if is_letter c then
            let '(name, r1) := span (fun a => is_letter a || is_digit a) s in
            cons (TIdent name) <$> lex fuel' r1
          else if Ascii.eqb c "{" then
            let '(name, r1) := span (fun a => negb (Ascii.eqb a "}")) r in
            match r1 with
            | String _ r2 => cons (TField name) <$> lex fuel' r2
            | "" => None
            end
          else
            match c with
            | "+"%char => cons TPlus <$> lex fuel' r
            | "-"%char => cons TMinus <$> lex fuel' r
            | "*"%char => cons TStar <$> lex fuel' r
            | "/"%char => cons TSlash <$> lex fuel' r
            | "("%char => cons TLParen <$> lex fuel' r
            | ")"%char => cons TRParen <$> lex fuel' r
            | ","%char => cons TComma <$> lex fuel' r
            | _ => None
            end
      end
  end.

Definition tokens (s : string) : option (list token) :=
  let s' := strip_spaces s in lex (String.length s') s'.

Definition parser : Type := list token -> option (expr * list token).

Definition expect (t : token -> bool) (ts : list token) : option (list token) :=
  match ts with
  | t0 :: r => if t t0 then Some r else None
  | [] => None
  end.

Definition is_comma (t : token) := match t with TComma => true | _ => false end.
Definition is_rparen (t : token) := match t with TRParen => true | _ => false end.

(** [primary := number | field | name "(" args ")" | name | "(" sum ")"] *)
Definition parse_primary (sum : parser) : parser := fun ts =>
  match ts with
  | TNum q :: r => Some (Num q, r)
  | TField f :: r => Some (Field f, r)
  | TLParen :: r =>
      '(e, r1) ← sum r; r2 ← expect is_rparen r1; Some (e, r2)
  | TIdent f :: TLParen :: r =>
      if String.eqb f "if" then
        '(c, r1) ← sum r; r1 ← expect is_comma r1;
        '(a, r2) ← sum r1; r2 ← expect is_comma r2;
        '(b, r3) ← sum r2; r3 ← expect is_rparen r3;
        Some (If c a b, r3)
      else if String.eqb f "lte" then
        '(a, r1) ← sum r; r1 ← expect is_comma r1;
        '(b, r2) ← sum r1; r2 ← expect is_rparen r2;
        Some (Lte a b, r2)
      else None
  | TIdent v :: r => Some (Var v, r)
  | _ => None
  end.

(** [factor := ("+" | "-")? primary] *)
Definition parse_factor (sum : parser) : parser := fun ts =>
  match ts with
  | TMinus :: r => '(e, r1) ← parse_primary sum r; Some (Neg e, r1)
  | TPlus :: r => parse_primary sum r
  | _ => parse_primary sum ts
  end.

(** [term := factor (("*" | "/") factor)*], left to right *)
Fixpoint term_rest (sum : parser) (n : nat) (acc : expr) (ts : list token)
  : option (expr * list token) :=
  match n with
  | O => None
  | S n' =>
      match ts with
      | TStar :: r =>
          '(e, r1) ← parse_factor sum r; term_rest sum n' (Mul acc e) r1
      | TSlash :: r =>
          '(e, r1) ← parse_factor sum r; term_rest sum n' (Div acc e) r1
      | _ => Some (acc, ts)
      end
  end.

Definition parse_term (sum : parser) : parser := fun ts =>
  '(e, r) ← parse_factor sum ts; term_rest sum (S (length r)) e r.

(** [sum := term (("+" | "-") term)*], left to right *)
Fixpoint sum_rest (sum : parser) (n : nat) (acc : expr) (ts : list token)
  : option (expr * list token) :=
  match n with
  | O => None
  | S n' =>
      match ts with
      | TPlus :: r =>
          '(e, r1) ← parse_term sum r; sum_rest sum n' (Add acc e) r1
      | TMinus :: r =>
          '(e, r1) ← parse_term sum r; sum_rest sum n' (Sub acc e) r1
      | _ => Some (acc, ts)
      end
  end.

Fixpoint parse_sum (fuel : nat) : parser := fun ts =>
  match fuel with
  | O => None
  | S fuel' =>
      '(e, r) ← parse_term (parse_sum fuel') ts;
      sum_rest (parse_sum fuel') (S (length r)) e r
  end.

(** The whole text must be one expression. *)
Definition parse (s : string) : option expr :=
  ts ← tokens s;
  match parse_sum (S (length ts)) ts with
  | Some (e, []) => Some e
  | _ => None
  end.

(** Values are exact rationals: the meaning of the formula, before the
    compositor's own floating-point rounding.  [vars] gives the
    variables, [fields] the numbers Python writes into the replacement
    fields. *)
Fixpoint eval (vars fields : string -> Q) (e : expr) : Q :=
  match e with
  | Num q => q
  | Field f => fields f
  | Var v => vars v
  | Neg a => Qopp (eval vars fields a)
  | Add a b => (eval vars fields a + eval vars fields b)%Q
  | Sub a b => (eval vars fields a - eval vars fields b)%Q
  | Mul a b => (eval vars fields a * eval vars fields b)%Q
  | Div a b => (eval vars fields a / eval vars fields b)%Q
  | Lte a b =>
      if Qle_bool (eval vars fields a) (eval vars fields b) then 1%Q else 0%Q
  | If c a b =>
      if Qeq_bool (eval vars fields c) 0 then eval vars fields b
      else eval vars fields a
  end.

Definition eval_text (vars fields : string -> Q) (s : string) : option Q :=
  eval vars fields <$> parse s.

(** A Python f-string: every [{name}] is replaced by [fields name]. *)
Fixpoint fstring_go (fields : string -> string) (s : string)
    (field : option string) : string :=
  match s with
  | "" => ""
  | String c r =>
      match field with
      | None =>
          if Ascii.eqb c "{" then fstring_go fields r (Some "")
          else String c (fstring_go fields r None)
      | Some name =>
          if Ascii.eqb c "}" then fields name ++ fstring_go fields r None
          else fstring_go fields r (Some (name ++ String c ""))
      end
  end.

Definition fstring (template : string) (fields : string -> string) : string :=
  fstring_go fields template None.

End Expr.

(** ** Motion parameters of [build_video_with_kenburns] *)

Local Open Scope string_scope.

(** [d = max(1, int(round(seconds_per_image * fps)))] *)
Definition hold_frames (seconds_per_image : pyfloat) (fps : Z) : outcome Z :=
  p ← Py.float_mul_int seconds_per_image fps;
  r ← Py.round p;
  Ok (Z.max 1 r).

(** The pan presets: [(x_expr, y_expr)]. *)
Definition pan_exprs (pan : string) : string * string :=
  if String.eqb pan "left" then
    ("iw/2-(iw/zoom)/2 - (iw/zoom)*0.10*(on/d)", "ih/2-(ih/zoom)/2")
  else if String.eqb pan "right" then
    ("iw/2-(iw/zoom)/2 + (iw/zoom)*0.10*(on/d)", "ih/2-(ih/zoom)/2")
  else if String.eqb pan "up" then
    ("iw/2-(iw/zoom)/2", "ih/2-(ih/zoom)/2 - (ih/zoom)*0.10*(on/d)")
  else if String.eqb pan "down" then
    ("iw/2-(iw/zoom)/2", "ih/2-(ih/zoom)/2 + (ih/zoom)*0.10*(on/d)")
  else
    ("iw/2-(iw/zoom)/2", "ih/2-(ih/zoom)/2").

(** The zoom expression, as the f-string is written. *)
Definition z_expr_template : string :=
  "if(lte(on, {d}), 1+({zoom}-1)*on/{d}, {zoom})".

(** The variables the zoompan filter offers to its expressions, for the
    output frame [on] of an input of [iw] x [ih] pixels shown for [d]
    frames. *)
Definition frame_vars (iw ih : Q) (d on : Z) (zoom : Q) (v : string) : Q :=
  if String.eqb v "iw" then iw
  else if String.eqb v "ih" then ih
  else if String.eqb v "on" then inject_Z on
  else if String.eqb v "d" then inject_Z d
  else if String.eqb v "zoom" then zoom
  else 0%Q.

(** The numbers behind the replacement fields of [z_expr]. *)
Definition motion_fields (d : Z) (zoom_target : Q) (f : string) : Q :=
  if String.eqb f "d" then inject_Z d
  else if String.eqb f "zoom" then zoom_target
  else 0%Q.

(** Zoom at output frame [on]. *)
Definition zoom_at (d : Z) (zoom_target : Q) (on : Z) : option Q :=
  Expr.eval_text (frame_vars 0 0 d on 1) (motion_fields d zoom_target)
    z_expr_template.

(** Top-left corner [(x, y)] of the visible window at output frame [on];
    the filter evaluates the zoom first and offers it as [zoom]. *)
Definition window_at (pan : string) (iw ih : Q) (d : Z) (zoom_target : Q)
    (on : Z) : option (Q * Q) :=
  z ← zoom_at d zoom_target on;
  let vars := frame_vars iw ih d on z in
  x ← Expr.eval_text vars (motion_fields d zoom_target) (fst (pan_exprs pan));
  y ← Expr.eval_text vars (motion_fields d zoom_target) (snd (pan_exprs pan));
  Some (x, y).





(** ** The compositor's command line

    How the compositor reads the options the mux step passes: inputs,
    per-stream codecs, audio bitrate, the shortest-stream flag and the
    output file. *)
Record mux_plan : Type := mk_plan {
  inputs : list string;
  video_codec : option string;
  audio_codec : option string;
  audio_bitrate : option string;
  shortest : bool;
  overwrite : bool;
  output : option string
}.

Definition empty_plan : mux_plan :=
  {| inputs := []; video_codec := None; audio_codec := None;
     audio_bitrate := None; shortest := false; overwrite := false;
     output := None |}.

Fixpoint read_options (args : list string) (p : mux_plan) : option mux_plan :=
  match args with
  | [] => Some p
  | a :: rest =>
      if String.eqb a "-y" then
        read_options rest (mk_plan (inputs p) (video_codec p) (audio_codec p)
                             (audio_bitrate p) (shortest p) true (output p))
      else if String.eqb a "-shortest" then
        read_options rest (mk_plan (inputs p) (video_codec p) (audio_codec p)
                             (audio_bitrate p) true (overwrite p) (output p))
      else if String.eqb a "-i" then
        match rest with
        | f :: rest' =>
            read_options rest' (mk_plan (inputs p ++ [f]) (video_codec p)
                                  (audio_codec p) (audio_bitrate p)
                                  (shortest p) (overwrite p) (output p))
        | [] => None
        end
      else if String.eqb a "-c:v" then
        match rest with
        | c :: rest' =>
            read_options rest' (mk_plan (inputs p) (Some c) (audio_codec p)
                                  (audio_bitrate p) (shortest p) (overwrite p)
                                  (output p))
        | [] => None
        end
      else if String.eqb a "-c:a" then
        match rest with
        | c :: rest' =>
            read_options rest' (mk_plan (inputs p) (video_codec p) (Some c)
                                  (audio_bitrate p) (shortest p) (overwrite p)
                                  (output p))
        | [] => None
        end
      else if String.eqb a "-b:a" then
        match rest with
        | b :: rest' =>
            read_options rest' (mk_plan (inputs p) (video_codec p)
                                  (audio_codec p) (Some b) (shortest p)
                                  (overwrite p) (output p))
        | [] => None
        end
      else if Str.starts_with "-" a then None
      else
        match output p with
        | None =>
            read_options rest (mk_plan (inputs p) (video_codec p)
                                 (audio_codec p) (audio_bitrate p)
                                 (shortest p) (overwrite p) (Some a))
        | Some _ => None
        end
  end.

Definition read_command (cmd : list string) : option mux_plan :=
  match cmd with
  | prog :: args => if String.eqb prog "ffmpeg" then read_options args empty_plan else None
  | [] => None
  end.

(** Duration of the written container: with the shortest-stream flag the
    output ends with the stream that ends first, without it with the one
    that ends last. *)
Definition container_duration (p : mux_plan) (video_duration audio_duration : Q) : Q :=
  if shortest p then Qmin video_duration audio_duration
  else Qmax video_duration audio_duration.

(** A stream whose codec is [copy] is passed through without decoding or
    encoding. *)
Definition reencodes (codec : option string) : bool :=
  match codec with
  | Some c => negb (String.eqb c "copy")
  | None => true
  end.


(** ** The stages: probing, narration, rendering, [main] *)

(** Before and after the last occurrence of [c]. *)
Fixpoint split_last (c : ascii) (s : string) : option (string * string) :=
  match s with
  | "" => None
  | String a r =>
      match split_last c r with
      | Some (b, t) => Some (String a b, t)
      | None => if Ascii.eqb a c then Some ("", r) else None
      end
  end.

(** [path.with_suffix(suffix)] of pathlib. *)
Definition with_suffix (path suffix : string) : string :=
  let '(parent, name) :=
    match split_last "/" path with
    | Some (dir, name) => (dir ++ "/", name)
    | None => ("", path)
    end in
  match split_last "." name with
  | Some (stem, ext) =>
      if String.eqb stem "" || String.eqb ext "" then parent ++ name ++ suffix
      else parent ++ stem ++ suffix
  | None => parent ++ name ++ suffix
  end.

(** The parsed command line. *)
Record args : Type := mk_args {
  a_images : option string;
  a_cbz : option string;
  a_script : option string;
  a_out : string;
  a_voice : string;
  a_rate : string;
  a_fps : Z;
  a_seconds_per_image : pyfloat;
  a_w : Z;
  a_h : Z;
  a_fit : string;
  a_zoom : pyfloat;
  a_pan : string;
  a_crf : Z
}.

(** What the run finds around it. *)
Record env : Type := mk_env {
  (* [ffmpeg -version] can be run *)
  ffmpeg_found : bool;
  (* [import edge_tts] succeeded *)
  edge_tts_imported : bool;
  (* exit status of an external command *)
  exit_status : list string -> Z;
  (* the name [tempfile.TemporaryDirectory] picks *)
  tmp_name : string;
  (* the current directory, an absolute path *)
  cwd : string;
  (* the image files of a folder, in natural order; [None]: no such folder *)
  folder_images : string -> option (list string);
  (* the image members of an archive, in natural order, with their
     contents; [None]: no such archive *)
  archive_images : string -> option (list (string * file));
  (* the narration service fails *)
  synth_error : option exn
}.

(** [strip()] of a text: white space removed at both ends. *)
Fixpoint lstrip (s : string) : string :=
  match s with
  | "" => ""
  | String c r => if Expr.is_space c then lstrip r else s
  end.

Fixpoint rstrip (s : string) : string :=
  match s with
  | "" => ""
  | String c r =>
      match rstrip r with
      | "" => if Expr.is_space c then "" else String c ""
      | r' => String c r'
      end
  end.

Definition strip (s : string) : string := rstrip (lstrip s).

Definition default_narration : string :=
  "Welcome. This is an automated manga to video demo. " ++
  "Replace this narration with your own script file for better results.".

Definition ffmpeg_missing_msg : string :=
  "ffmpeg not found. Install ffmpeg and make sure it's in PATH.".

Definition edge_tts_missing_msg : string :=
  "edge-tts is not installed. Run: pip install edge-tts".

Section Pipeline.

Variable lanczos : image -> Z -> Z -> Z -> Z -> rgb.

(** [str(x)] of a float, as an f-string field writes it. *)
Variable float_repr : pyfloat -> string.

Variable E : env.

Definition run (cmd : list string) : M unit :=
  _ ← emit (EvRun cmd);
  if (exit_status E cmd =? 0)%Z then mret tt
  else die ("Command failed: " ++ Str.join cmd).

Definition check_ffmpeg : M unit :=
  _ ← emit (EvProbe ["ffmpeg"; "-version"]);
  if ffmpeg_found E then mret tt
  else die ffmpeg_missing_msg.

Definition collect_images_from_dir (folder : string) : M (list string) :=
  match folder_images E folder with
  | None => die ("Input folder not found: " ++ folder)
  | Some [] => die ("No images found in folder: " ++ folder)
  | Some imgs => mret imgs
  end.

Definition extract_cbz (cbz_path out_dir : string) : M (list string) :=
  match archive_images E cbz_path with
  | None => die ("CBZ not found: " ++ cbz_path)
  | Some members =>
      _ ← emit (EvExtract cbz_path out_dir);
      _ ← (fun w =>
             ({| fs := foldr (fun m acc => <[Str.path_join out_dir m.1 := m.2]> acc)
                         (fs w) members;
                 log := log w |}, Ok tt));
      match members with
      | [] => die ("No images found inside CBZ: " ++ cbz_path)
      | _ => mret (map (fun m => Str.path_join out_dir m.1) members)
      end
  end.

Definition read_script (script_path : option string) (default_text : string)
  : M string :=
  match script_path with
  | None => mret default_text
  | Some p =>
      fun w =>
        match fs w !! p with
        | None => (w, Exit ("Script file not found: " ++ p))
        | Some (Text content) =>
            let txt := strip content in
            if String.eqb txt "" then (w, Exit "Script file is empty.")
            else (w, Ok txt)
        | Some _ => (w, Raise (ValueError "not a UTF-8 text"))
        end
  end.

Definition synth_tts_edge (text out_mp3 voice rate : string) : M unit :=
  _ ← (if edge_tts_imported E then mret tt
       else die edge_tts_missing_msg);
  _ ← emit (EvSynth out_mp3);
  match synth_error E with
  | Some e => lift (Raise e)
  | None => fun w => ({| fs := <[out_mp3 := Blob]> (fs w); log := log w |}, Ok tt)
  end.

(** A successful compositor call leaves its output file. *)
Definition produced (path : string) : M unit :=
  fun w => ({| fs := <[path := Blob]> (fs w); log := log w |}, Ok tt).

(** [path.unlink(missing_ok=True)] *)
Definition unlink (path : string) : M unit :=
  fun w => ({| fs := delete path (fs w);
               log := (log w ++ [EvUnlink path])%list |}, Ok tt).

(** The arguments of the second compositor call. *)
Definition mux_command (temp_video audio_mp3 out_mp4 : string) : list string :=
  ["ffmpeg"; "-y";
   "-i"; temp_video;
   "-i"; audio_mp3;
   "-c:v"; "copy";
   "-c:a"; "aac";
   "-b:a"; "192k";
   "-shortest";
   out_mp4].

Definition build_video_with_kenburns (frames_dir audio_mp3 out_mp4 : string)
    (fps : Z) (seconds_per_image zoom : pyfloat) (pan : string) (crf : Z)
  : M unit :=
  let temp_video := with_suffix out_mp4 ".silent.mp4" in
  d ← lift (hold_frames seconds_per_image fps);
  let '(x_expr, y_expr) := pan_exprs pan in
  let fields := fun f =>
    if String.eqb f "d" then Str.of_int d
    else if String.eqb f "zoom" then float_repr zoom
    else if String.eqb f "fps" then Str.of_int fps
    else "" in
  let z_expr := Expr.fstring z_expr_template fields in
  let vf :=
    Expr.fstring "zoompan=z='{z_expr}':x='{x_expr}':y='{y_expr}':d={d}:fps={fps},"
      (fun f => if String.eqb f "z_expr" then z_expr
                else if String.eqb f "x_expr" then x_expr
                else if String.eqb f "y_expr" then y_expr
                else fields f)
    ++ "format=yuv420p" in
  _ ← run ["ffmpeg"; "-y";
           "-framerate"; Str.of_int fps;
           "-i"; Str.path_join frames_dir "frame_%05d.png";
           "-vf"; vf;
           "-c:v"; "libx264";
           "-crf"; Str.of_int crf;
           "-preset"; "medium";
           temp_video];
  _ ← produced temp_video;
  _ ← run (mux_command temp_video audio_mp3 out_mp4);
  _ ← produced out_mp4;
  unlink temp_video.

(** [with tempfile.TemporaryDirectory() as tmp: body]: the directory is
    removed however the body ends. *)
Definition with_temporary_directory {A} (body : string -> M A) : M A :=
  fun w =>
    let tmp := tmp_name E in
    let w1 := {| fs := fs w; log := (log w ++ [EvMkdtemp tmp])%list |} in
    let '(w2, r) := body tmp w1 in
    ({| fs := filter (fun kv => String.prefix (tmp ++ "/") kv.1 = false) (fs w2);
        log := (log w2 ++ [EvRmtree tmp])%list |}, r).

(** [Path(p).resolve()]: absolute; links and dots are not followed up. *)
Definition resolve (p : string) : string :=
  if Str.starts_with "/" p then p else Str.path_join (cwd E) p.

Definition parent_dir (path : string) : string :=
  match split_last "/" path with
  | Some (dir, _) => dir
  | None => "."
  end.

Definition main (a : args) : M unit :=
  _ ← check_ffmpeg;
  let out_mp4 := resolve (a_out a) in
  _ ← emit (EvMkdir (parent_dir out_mp4));
  text ← read_script (a_script a) default_narration;
  with_temporary_directory (fun tmp_dir =>
    let work_dir := Str.path_join tmp_dir "work" in
    _ ← emit (EvMkdir work_dir);
    imgs ← match a_cbz a with
           | Some cbz =>
               extract_cbz (resolve cbz) (Str.path_join work_dir "cbz_extract")
           | None => collect_images_from_dir (resolve (default "" (a_images a)))
           end;
    let frames_dir := Str.path_join work_dir "frames" in
    _ ← make_frames lanczos imgs frames_dir (a_w a) (a_h a) (a_fit a);
    let audio_mp3 := Str.path_join work_dir "narration.mp3" in
    _ ← synth_tts_edge text audio_mp3 (a_voice a) (a_rate a);
    build_video_with_kenburns frames_dir audio_mp3 out_mp4 (a_fps a)
      (a_seconds_per_image a) (a_zoom a) (a_pan a) (a_crf a)).

End Pipeline.

Definition initial (files : gmap string file) : world :=
  {| fs := files; log := [] |}.

(** The events of a log that write an image. *)
Definition is_save (e : event) : bool :=
  match e with EvSave _ => true | _ => false end.

Definition saved_paths (l : list event) : list string :=
  omap (fun e => match e with EvSave p => Some p | _ => None end) l.

(** ** Notions used in the statements *)

(** Bounds on the rounding error of one float operation: the relative
    part and the part near zero. *)
Definition eps53 : Q := 1 # 9007199254740992.
Definition tiny : Q := 1 # 1267650600228229401496703205376.

Import Expr.

(** The centred window: [iw/2-(iw/zoom)/2] and [ih/2-(ih/zoom)/2]. *)
Definition centred (side : string) : expr :=
  Sub (Div (Var side) (Num 2)) (Div (Div (Var side) (Var "zoom")) (Num 2)).

(** The pan term [(side/zoom)*0.10*(on/d)]. *)
Definition drift (side : string) : expr :=
  Mul (Mul (Div (Var side) (Var "zoom")) (Num (1 # 10)))
      (Div (Var "on") (Var "d")).

(** The zoom curve the expression denotes. *)
Definition zoom_curve (d : Z) (zoom_target : Q) (on : Z) : Q :=
  if Qle_bool (inject_Z on) (inject_Z d)
  then (1 + (zoom_target - 1) * inject_Z on / inject_Z d)%Q
  else zoom_target.


Definition is_direction (pan : string) : Prop :=
  pan = "left"%string \/ pan = "right"%string \/ pan = "up"%string \/
  pan = "down"%string.



Definition frame_path (frames_dir : string) (i : Z) : string :=
  Str.path_join frames_dir (frame_name i).

(** The image at [img] can be decoded and fitted to the canvas. *)
Definition normalizable (lanczos : image -> Z -> Z -> Z -> Z -> rgb)
    (fit : string) (W H : Z) (files : gmap string file) (img : string) : Prop :=
  exists im out,
    files !! img = Some (Raster im) /\ fit_image lanczos fit im W H = Ok out.

(** A small run: two pages in a folder, default options. *)
Definition example_lanczos : image -> Z -> Z -> Z -> Z -> rgb :=
  fun _ _ _ _ _ => (9, 9, 9).

Definition example_repr : pyfloat -> string := fun _ => "1.12".

Definition example_files : gmap string file :=
  <["/pages/1.png" := Raster {| width := 540; height := 480;
                                pixel := fun _ _ => (1, 2, 3) |}]>
    (<["/pages/2.png" := Raster {| width := 540; height := 960;
                                  pixel := fun _ _ => (4, 5, 6) |}]> ∅).

Definition example_env : env :=
  {| ffmpeg_found := true;
     edge_tts_imported := true;
     exit_status := fun _ => 0;
     tmp_name := "/tmp/t";
     cwd := "/home";
     folder_images := fun f =>
       if String.eqb f "/pages" then Some ["/pages/1.png"; "/pages/2.png"]
       else None;
     archive_images := fun _ => None;
     synth_error := None |}.

Definition example_args (w h : Z) : args :=
  {| a_images := Some "/pages"; a_cbz := None; a_script := None;
     a_out := "/out/output.mp4"; a_voice := "en-US-AriaNeural"; a_rate := "+0%";
     a_fps := 30; a_seconds_per_image := Finite 3; a_w := w; a_h := h;
     a_fit := "contain"; a_zoom := Finite (28 # 25); a_pan := "center";
     a_crf := 20 |}.

(** ** Listing the pages: [natural_sort_key] and the directory scans

    The names are taken as ASCII text: the digits are [0]..[9] and
    [lower()] acts on [A]..[Z]. *)

(** [c.lower()] *)
Definition lower_char (c : ascii) : ascii :=
  let n := N_of_ascii c in
  if (65 <=? n)%N && (n <=? 90)%N then ascii_of_N (n + 32) else c.

Fixpoint lower (s : string) : string :=
  match s with
  | "" => ""
  | String c r => String (lower_char c) (lower r)
  end.

Fixpoint all_digits (s : string) : bool :=
  match s with
  | "" => true
  | String c r => is_digit c && all_digits r
  end.

(** [t.isdigit()]: at least one character, and only digits. *)
Definition isdigit (t : string) : bool :=
  negb (String.eqb t "") && all_digits t.

Definition not_digit (c : ascii) : bool := negb (is_digit c).

(** [re.split(r"(\d+)", s)]: the text before the first run of digits,
    that run, the text up to the next run, and so on to the text after
    the last run.  The runs are as long as they can be; the texts can be
    empty. *)
Fixpoint re_split_digits_fuel (fuel : nat) (s : string) : list string :=
  let '(t, r) := span not_digit s in
  match r, fuel with
  | "", _ => [t]
  | _, O => [t]
  | _, S fuel' =>
      let '(d, r') := span is_digit r in
      t :: d :: re_split_digits_fuel fuel' r'
  end.

Definition re_split_digits (s : string) : list string :=
  re_split_digits_fuel (String.length s) s.

(** An element of a sort key: [int(t)] or [t.lower()]. *)
Inductive key_part : Type :=
  | KInt (n : Z)
  | KStr (s : string).

Definition key_of_piece (t : string) : key_part :=
  if isdigit t then KInt (digits_value t 0) else KStr (lower t).

Definition natural_sort_key (s : string) : list key_part :=
  map key_of_piece (re_split_digits s).

(** The order of two keys, as [<] on lists finds it: the first pair of
    unequal elements decides, a proper prefix is smaller.  [None] is the
    TypeError of ordering a number and a text. *)
Fixpoint key_compare (a b : list key_part) : option comparison :=
  match a, b with
  | [], [] => Some Eq
  | [], _ :: _ => Some Lt
  | _ :: _, [] => Some Gt
  | KInt m :: a', KInt n :: b' =>
      match (m ?= n)%Z with
      | Eq => key_compare a' b'
      | c => Some c
      end
  | KStr s :: a', KStr t :: b' =>
      match String.compare s t with
      | Eq => key_compare a' b'
      | c => Some c
      end
  | _, _ => None
  end.

Definition key_lt (a b : list key_part) : bool :=
  match key_compare a b with
  | Some Lt => true
  | _ => false
  end.

(** [natural_sort_key(a) < natural_sort_key(b)] *)
Definition name_lt (a b : string) : bool :=
  key_lt (natural_sort_key a) (natural_sort_key b).

(** [l.sort(key=...)], the stable sort: an item goes in front of the
    first later item that is not smaller. *)
Fixpoint insert_sorted {A} (lt : A -> A -> bool) (x : A) (l : list A)
  : list A :=
  match l with
  | [] => [x]
  | y :: r => if lt y x then y :: insert_sorted lt x r else x :: l
  end.

Fixpoint stable_sort {A} (lt : A -> A -> bool) (l : list A) : list A :=
  match l with
  | [] => []
  | x :: r => insert_sorted lt x (stable_sort lt r)
  end.

Definition IMG_EXTS : list string := [".jpg"; ".jpeg"; ".png"; ".webp"].

(** [p.name]: the last component of a path. *)
Definition path_name (path : string) : string :=
  match split_last "/" path with
  | Some (_, name) => name
  | None => path
  end.

(** [p.suffix]: from the last dot of the name on, when that dot is
    neither its first nor its last character. *)
Definition path_suffix (path : string) : string :=
  let name := path_name path in
  match split_last "." name with
  | Some (stem, ext) =>
      if String.eqb stem "" || String.eqb ext "" then "" else "." ++ ext
  | None => ""
  end.

(** [p.suffix.lower() in IMG_EXTS] *)
Definition has_image_suffix (path : string) : bool :=
  existsb (String.eqb (lower (path_suffix path))) IMG_EXTS.

(** An entry of a directory, or a member of an unpacked archive, by its
    path below the root. *)
Record dir_entry : Type := mk_entry {
  entry_path : string;
  entry_is_file : bool
}.

Definition is_image_entry (p : dir_entry) : bool :=
  has_image_suffix (entry_path p) && entry_is_file p.

(** [natural_sort_key(p.name) < natural_sort_key(q.name)] *)
Definition entry_lt (p q : dir_entry) : bool :=
  name_lt (path_name (entry_path p)) (path_name (entry_path q)).

(** The list that [collect_images_from_dir] and [extract_cbz] build from
    the entries they walk: the image files, sorted by the natural key of
    their names, as paths below [root]. *)
Definition sorted_images (root : string) (entries : list dir_entry)
  : list string :=
  map (fun p => Str.path_join root (entry_path p))
    (stable_sort entry_lt (List.filter is_image_entry entries)).



(** The shape of a key: a text, then numbers and texts in turn. *)
Inductive alternating : list key_part -> Prop :=
  | alternating_last (t : string) : alternating [KStr t]
  | alternating_more (t : string) (n : Z) (k : list key_part) :
      alternating k -> alternating (KStr t :: KInt n :: k).

(** Two names have the same sort key. *)
Definition same_key (a b : string) : bool :=
  match key_compare (natural_sort_key a) (natural_sort_key b) with
  | Some Eq => true
  | _ => false
  end.

(** [c in s] *)
Fixpoint has_char (c : ascii) (s : string) : bool :=
  match s with
  | "" => false
  | String a r => Ascii.eqb a c || has_char c r
  end.





(** A stage leaves the file at [p] as it was, however it ends. *)
Definition spares {A} (p : string) (m : M A) : Prop :=
  forall w, fs (m w).1 !! p = fs w !! p.

(** The corner of a centred window along a side of length [s], at zoom
    [z]: [s/2-(s/zoom)/2]. *)
Definition centred_at (s z : Q) : Q := (s / 2 - s / z / 2)%Q.

(** The window of a frame, if there is one, has its corner at [(x, y)]. *)
Definition window_is (o : option (Q * Q)) (x y : Q) : Prop :=
  match o with
  | Some (a, b) => (a == x /\ b == y)%Q
  | None => False
  end.



(* ===================================================================== *)
(** * Part II: properties *)
(* ===================================================================== *)

Local Open Scope Z_scope.

(* [lia] also decides goals with [/] and [mod] by constants. *)
Ltac Zify.zify_post_hook ::= Z.to_euclidean_division_equations.

Ltac unfold_M :=
  unfold mbind, M_mbind, M_bind, mret, M_mret, M_ret, lift, die, emit in *.

(** ** Rational arithmetic *)

Lemma inject_Z_pos (d : Z) : 1 <= d -> (0 < inject_Z d)%Q.
Proof. intros H. unfold Qlt; cbn. lia. Qed.

Lemma Qdiv_le_cross (a b c e : Q) :
  (0 < b -> 0 < e -> a * e <= c * b -> a / b <= c / e)%Q.
Proof.
  intros Hb He H.
  apply Qle_shift_div_l; [exact He |].
  setoid_replace (a / b * e)%Q with (a * e / b)%Q using relation Qeq
    by (field; lra).
  apply Qle_shift_div_r; assumption.
Qed.

(** ** Rounding error of binary64 *)

(** The integer returned by [round] is within one half of its argument. *)
Lemma round_half_even_near (q : Q) :
  (Qabs (inject_Z (Binary64.round_half_even q) - q) <= 1 # 2)%Q.
Proof.
  destruct q as [n d]. unfold Binary64.round_half_even; cbn [Qnum Qden].
  pose proof (Z.div_mod n (Z.pos d) ltac:(lia)) as Hdm.
  pose proof (Z.mod_pos_bound n (Z.pos d) ltac:(lia)) as Hm.
  set (f := n / Z.pos d) in *. set (r := n mod Z.pos d) in *.
  apply Qabs_Qle_condition.
  assert (Hcases :
    forall k, (k = f /\ 2 * r <= Z.pos d) \/ (k = f + 1 /\ Z.pos d <= 2 * r) ->
    (- (1 # 2) <= inject_Z k - (n # d) <= 1 # 2)%Q).
  { intros k Hk. unfold Qle, Qminus, Qplus, Qopp, inject_Z; cbn.
    destruct Hk as [[-> H] | [-> H]]; split; nia. }
  apply Hcases.
  destruct (Z.compare_spec (2 * r) (Z.pos d)) as [He | Hl | Hg].
  - destruct (Z.even f); [left | right]; split; auto; lia.
  - left; split; auto; lia.
  - right; split; auto; lia.
Qed.

Local Open Scope Q_scope.

Lemma pow2_Qpower (k : Z) : Binary64.pow2 k == 2 ^ k.
Proof.
  unfold Binary64.pow2. destruct (0 <=? k)%Z eqn:E.
  - apply Z.leb_le in E. rewrite Zpower_Qpower by assumption. reflexivity.
  - apply Z.leb_gt in E. rewrite Zpower_Qpower by lia.
    change (inject_Z 2) with 2.
    setoid_replace (2 ^ k) with (/ 2 ^ (- k)) using relation Qeq.
    + field. apply Qpower_not_0. discriminate.
    + rewrite <- Qpower_opp. rewrite Z.opp_involutive. reflexivity.
Qed.

Lemma pow2_pos (k : Z) : 0 < Binary64.pow2 k.
Proof. rewrite pow2_Qpower. apply Qpower_0_lt. reflexivity. Qed.

Lemma pow2_le (a b : Z) : (a <= b)%Z -> Binary64.pow2 a <= Binary64.pow2 b.
Proof.
  intros H. rewrite !pow2_Qpower. apply Qpower_le_compat_l; [exact H |].
  discriminate.
Qed.

Lemma pow2_add (a b : Z) :
  Binary64.pow2 (a + b) == Binary64.pow2 a * Binary64.pow2 b.
Proof. rewrite !pow2_Qpower. apply Qpower_plus. discriminate. Qed.

Lemma pow2_nonneg (k : Z) : (0 <= k)%Z -> Binary64.pow2 k = inject_Z (2 ^ k).
Proof.
  intros H. unfold Binary64.pow2. apply Z.leb_le in H. rewrite H. reflexivity.
Qed.

Lemma pow2_opp (k : Z) : Binary64.pow2 (- k) == / Binary64.pow2 k.
Proof. rewrite !pow2_Qpower. apply Qpower_opp. Qed.

Lemma pow2_ilog2_le (q : Q) : 0 < q -> Binary64.pow2 (Binary64.ilog2 q) <= q.
Proof.
  intros Hq. unfold Binary64.ilog2.
  set (e0 := (Z.log2 (Qnum q) - Z.log2 (Z.pos (Qden q)))%Z).
  destruct (Qle_bool (Binary64.pow2 e0) q) eqn:E.
  - apply Qle_bool_iff. exact E.
  - destruct q as [n d]. cbn [Qnum Qden] in *.
    assert (Hn : (0 < n)%Z) by (unfold Qlt in Hq; cbn in Hq; lia).
    pose proof (Z.log2_spec n Hn) as [Ha _].
    pose proof (Z.log2_spec (Z.pos d) ltac:(lia)) as [_ Hb].
    pose proof (Z.log2_nonneg n). pose proof (Z.log2_nonneg (Z.pos d)).
    set (a := Z.log2 n) in *. set (b := Z.log2 (Z.pos d)) in *.
    assert (Ha' : (0 < 2 ^ a)%Z) by (apply Z.pow_pos_nonneg; lia).
    assert (Hb' : (0 < 2 ^ Z.succ b)%Z) by (apply Z.pow_pos_nonneg; lia).
    replace (e0 - 1)%Z with (a + - Z.succ b)%Z by (unfold e0; lia).
    rewrite pow2_add, pow2_opp, !pow2_nonneg by lia.
    rewrite (Qmake_Qdiv n d).
    apply Qdiv_le_cross.
    + apply inject_Z_pos. lia.
    + apply inject_Z_pos. lia.
    + rewrite <- !inject_Z_mult, <- Zle_Qle. nia.
Qed.


Lemma round_half_even_upper (x : Q) :
  inject_Z (Binary64.round_half_even x) <= x + (1 # 2).
Proof.
  pose proof (round_half_even_near x) as H.
  apply Qabs_Qle_condition in H. lra.
Qed.

Lemma round_half_even_nonneg (x : Q) :
  0 <= x -> (0 <= Binary64.round_half_even x)%Z.
Proof.
  intros Hx. pose proof (round_half_even_near x) as H.
  apply Qabs_Qle_condition in H as [H _].
  assert (Hm : - (1 # 2) <= inject_Z (Binary64.round_half_even x)) by lra.
  unfold Qle in Hm; cbn in Hm. lia.
Qed.

Lemma round_pos_bounds (q : Q) :
  0 < q ->
  0 <= Binary64.round_pos q /\
  Binary64.round_pos q <= q * (1 + eps53) + tiny.
Proof.
  intros Hq. unfold Binary64.round_pos.
  set (e := Z.max (Binary64.ilog2 q - 52) (-1074)).
  pose proof (pow2_pos e) as Hp. set (p := Binary64.pow2 e) in *.
  rewrite Qred_correct.
  assert (Hx : 0 <= q / p) by (apply Qle_shift_div_l; [exact Hp | lra]).
  pose proof (round_half_even_upper (q / p)) as Hup.
  pose proof (round_half_even_nonneg (q / p) Hx) as Hlo.
  set (m := Binary64.round_half_even (q / p)) in *.
  assert (Hm : 0 <= inject_Z m) by (rewrite <- (Zle_Qle 0); exact Hlo).
  split; [apply Qmult_le_0_compat; lra |].
  assert (Hmp : inject_Z m * p <= q + (1 # 2) * p).
  { setoid_replace (q + (1 # 2) * p) with ((q / p + (1 # 2)) * p)
      using relation Qeq by (field; lra).
    apply Qmult_le_compat_r; lra. }
  assert (Hpb : p <= q * Binary64.pow2 (-52) + Binary64.pow2 (-1074)).
  { pose proof (pow2_pos (-52)). pose proof (pow2_pos (-1074)).
    pose proof (pow2_ilog2_le q Hq) as Hlog.
    unfold p, e.
    destruct (Z.max_spec (Binary64.ilog2 q - 52) (-1074)) as [[_ ->] | [_ ->]].
    - assert (0 <= q * Binary64.pow2 (-52)) by (apply Qmult_le_0_compat; lra). lra.
    - replace (Binary64.ilog2 q - 52)%Z with (Binary64.ilog2 q + -52)%Z by lia.
      rewrite pow2_add.
      assert (Binary64.pow2 (Binary64.ilog2 q) * Binary64.pow2 (-52)
              <= q * Binary64.pow2 (-52)) by (apply Qmult_le_compat_r; lra).
      lra. }
  assert (H52 : Binary64.pow2 (-52) == 2 * eps53) by reflexivity.
  assert (Htiny : Binary64.pow2 (-1074) <= 2 * tiny).
  { apply Qle_trans with (Binary64.pow2 (-99)); [apply pow2_le; lia |].
    vm_compute. discriminate. }
  rewrite H52 in Hpb. unfold eps53, tiny in *. lra.
Qed.

Lemma round_bounds (q : Q) :
  0 <= q ->
  0 <= Binary64.round q /\ Binary64.round q <= q * (1 + eps53) + tiny.
Proof.
  intros Hq. unfold Binary64.round.
  destruct q as [[| n | n] d]; cbn [Qnum].
  - split; [lra |]. vm_compute. discriminate.
  - apply round_pos_bounds. reflexivity.
  - exfalso. unfold Qle in Hq; cbn in Hq; lia.
Qed.

(** Below [2^1000] nothing overflows. *)
Lemma of_Q_finite (q : Q) :
  0 <= q -> q <= inject_Z (2 ^ 1000) ->
  exists r, Py.of_Q q = Finite r /\ 0 <= r /\ r <= q * (1 + eps53) + tiny.
Proof.
  intros Hq Hb. destruct (round_bounds q Hq) as [Hlo Hup].
  exists (Binary64.round q). split; [| split; assumption].
  unfold Py.of_Q, Binary64.overflows.
  destruct (Qle_bool (Binary64.pow2 1024) (Qabs (Binary64.round q))) eqn:E;
    [| reflexivity].
  exfalso. apply Qle_bool_iff in E. rewrite Qabs_pos in E by assumption.
  assert (Hbig : inject_Z (2 ^ 1000) * (1 + eps53) + tiny < Binary64.pow2 1024)
    by (vm_compute; reflexivity).
  assert (q * (1 + eps53) <= inject_Z (2 ^ 1000) * (1 + eps53))
    by (apply Qmult_le_compat_r; [assumption | unfold eps53; lra]).
  lra.
Qed.






(** ** Hold frames *)

Local Close Scope Q_scope.

(** Every count that [hold_frames] returns is at least 1, whatever the
    inputs. *)
Lemma hold_frames_ge_1 (seconds_per_image : pyfloat) (fps d : Z) :
  hold_frames seconds_per_image fps = Ok d -> 1 <= d.
Proof.
  unfold hold_frames.
  destruct (Py.float_mul_int seconds_per_image fps) as [p | |]; cbn; try discriminate.
  destruct (Py.round p) as [r | |]; cbn; try discriminate.
  intros [= <-]. lia.
Qed.

Lemma round_half_even_ge_1 (p : Q) :
  (1 <= p)%Q -> 1 <= Binary64.round_half_even p.
Proof.
  intros Hp. pose proof (round_half_even_near p) as H.
  apply Qabs_Qle_condition in H as [H _].
  assert (Hr : (1 # 2 <= inject_Z (Binary64.round_half_even p))%Q) by lra.
  unfold Qle in Hr; cbn in Hr. lia.
Qed.

(** C7: the hold-frame count is [round(secondsPerImage * fps)] raised to
    at least 1.  Every count [d] that [hold_frames] returns has [d >= 1];
    and whenever the product is a finite float [p], it returns
    [d = max(1, r)] for the rounded product [r], the integer nearest to
    [p]: so [d = r] when [r >= 1], in particular when [p >= 1], and
    [d = 1] otherwise. *)
Theorem hold_frames_rounds_with_floor_one
    (seconds_per_image : pyfloat) (fps : Z) :
  (forall d, hold_frames seconds_per_image fps = Ok d -> 1 <= d) /\
  (forall p,
     Py.float_mul_int seconds_per_image fps = Ok (Finite p) ->
     let r := Binary64.round_half_even p in
     exists d,
       hold_frames seconds_per_image fps = Ok d /\
       1 <= d /\
       d = Z.max 1 r /\
       (1 <= r -> d = r) /\
       ((1 <= p)%Q -> d = r) /\
       (r < 1 -> d = 1) /\
       (Qabs (inject_Z r - p) <= 1 # 2)%Q).
Proof.
  split; [intros d; apply hold_frames_ge_1 |].
  intros p Hp r. exists (Z.max 1 r).
  unfold hold_frames. rewrite Hp. cbn. fold r.
  split; [reflexivity |]. split; [lia |]. split; [reflexivity |].
  split; [lia |]. split.
  - intros H1. pose proof (round_half_even_ge_1 p H1). fold r in H. lia.
  - split; [lia | apply round_half_even_near].
Qed.

Lemma hold_frames_rounds_witness :
  exists d, hold_frames (Finite 3%Q) 30 = Ok d /\ d = 90.
Proof.
  destruct (hold_frames_rounds_with_floor_one (Finite 3%Q) 30) as [_ H].
  destruct (H 90%Q) as (d & Hd & _ & Hmax & _).
  - vm_compute. reflexivity.
  - exists d. split; [exact Hd | exact Hmax].
Defined.


Local Open Scope Q_scope.

(** For a non-negative, finite [seconds_per_image] and a non-negative
    [fps], both below [2^400], the product is a finite float, so
    [hold_frames] returns a count. *)
Lemma hold_frames_defined (q : Q) (fps : Z) :
  0 <= q -> q <= inject_Z (2 ^ 400) -> (0 <= fps <= 2 ^ 400)%Z ->
  exists d, hold_frames (Finite q) fps = Ok d /\ (1 <= d)%Z.
Proof.
  intros Hq0 Hq1 Hfps.
  assert (Hf0 : 0 <= inject_Z fps) by (rewrite <- (Zle_Qle 0); lia).
  assert (Hf1 : inject_Z fps <= inject_Z (2 ^ 400)) by (rewrite <- Zle_Qle; lia).
  destruct (of_Q_finite (inject_Z fps)) as (f & Hf & Hfl & Hfu).
  - exact Hf0.
  - apply Qle_trans with (inject_Z (2 ^ 400)); [exact Hf1 | vm_compute; discriminate].
  - assert (Hfb : f <= inject_Z (2 ^ 401)).
    { apply Qle_trans with (inject_Z fps * (1 + eps53) + tiny); [exact Hfu |].
      apply Qle_trans with (inject_Z (2 ^ 400) * (1 + eps53) + tiny).
      - apply Qplus_le_l. apply Qmult_le_compat_r; [exact Hf1 | vm_compute; discriminate].
      - vm_compute. discriminate. }
    destruct (of_Q_finite (q * f)) as (p & Hp & _).
    + apply Qmult_le_0_compat; assumption.
    + apply Qle_trans with (inject_Z (2 ^ 400) * inject_Z (2 ^ 401)).
      * apply Qmult_le_compat_nonneg; split; assumption.
      * vm_compute. discriminate.
    + exists (Z.max 1 (Binary64.round_half_even p)). split; [| lia].
      unfold hold_frames, Py.float_mul_int, Py.float_of_int. rewrite Hf.
      cbn [mbind outcome_mbind outcome_bind Py.fmul]. rewrite Hp. reflexivity.
Qed.

Local Close Scope Q_scope.

(** ** The mux command *)

(** C9: the command of the mux step asks the compositor to copy the video
    stream ([-c:v copy], no re-encode), to encode the audio as AAC at the
    fixed bitrate 192k, and to stop at the shortest stream; read that way,
    the container lasts [min(videoDuration, audioDuration)].  The output
    path is absolute, as [resolve] leaves it. *)
Theorem mux_copies_video_and_stops_at_shortest
    (temp_video audio_mp3 out_mp4 : string) (video_duration audio_duration : Q) :
  Str.starts_with "/" out_mp4 = true ->
  exists plan,
    read_command (mux_command temp_video audio_mp3 out_mp4) = Some plan /\
    inputs plan = [temp_video; audio_mp3] /\
    output plan = Some out_mp4 /\
    video_codec plan = Some "copy"%string /\
    reencodes (video_codec plan) = false /\
    audio_codec plan = Some "aac"%string /\
    reencodes (audio_codec plan) = true /\
    audio_bitrate plan = Some "192k"%string /\
    shortest plan = true /\
    container_duration plan video_duration audio_duration
      = Qmin video_duration audio_duration.
Proof.
  intros Habs.
  destruct out_mp4 as [| c rest]; [discriminate |].
  cbn in Habs. apply Ascii.eqb_eq in Habs as ->.
  exists {| inputs := [temp_video; audio_mp3];
            video_codec := Some "copy"%string;
            audio_codec := Some "aac"%string;
            audio_bitrate := Some "192k"%string;
            shortest := true; overwrite := true;
            output := Some (String "/" rest) |}.
  split; [| cbn; repeat split; reflexivity].
  unfold read_command, mux_command. cbn. reflexivity.
Qed.

Lemma mux_copies_video_witness :
  exists plan,
    read_command (mux_command "/out/output.silent.mp4" "/tmp/t/work/narration.mp3"
                    "/out/output.mp4") = Some plan /\
    shortest plan = true /\
    container_duration plan 10 (62 # 5) = Qmin 10 (62 # 5).
Proof.
  destruct (mux_copies_video_and_stops_at_shortest
              "/out/output.silent.mp4" "/tmp/t/work/narration.mp3"
              "/out/output.mp4" 10 (62 # 5) eq_refl)
    as (plan & Hread & _ & _ & _ & _ & _ & _ & _ & Hs & Hd).
  exists plan. repeat split; assumption.
Defined.

(** ** Zoom and pan expressions *)

Lemma parse_z_expr :
  parse z_expr_template =
  Some (If (Lte (Var "on") (Field "d"))
          (Add (Num 1)
             (Div (Mul (Sub (Field "zoom") (Num 1)) (Var "on")) (Field "d")))
          (Field "zoom")).
Proof. vm_compute. reflexivity. Qed.


Lemma parse_pan_exprs :
  (parse (fst (pan_exprs "left")) = Some (Sub (centred "iw") (drift "iw")) /\
   parse (snd (pan_exprs "left")) = Some (centred "ih")) /\
  (parse (fst (pan_exprs "right")) = Some (Add (centred "iw") (drift "iw")) /\
   parse (snd (pan_exprs "right")) = Some (centred "ih")) /\
  (parse (fst (pan_exprs "up")) = Some (centred "iw") /\
   parse (snd (pan_exprs "up")) = Some (Sub (centred "ih") (drift "ih"))) /\
  (parse (fst (pan_exprs "down")) = Some (centred "iw") /\
   parse (snd (pan_exprs "down")) = Some (Add (centred "ih") (drift "ih"))) /\
  (parse (fst (pan_exprs "center")) = Some (centred "iw") /\
   parse (snd (pan_exprs "center")) = Some (centred "ih")).
Proof. vm_compute. repeat split; reflexivity. Qed.


Lemma zoom_at_curve (d : Z) (zoom_target : Q) (on : Z) :
  zoom_at d zoom_target on = Some (zoom_curve d zoom_target on).
Proof.
  unfold zoom_at, eval_text. rewrite parse_z_expr.
  cbn -[Qplus Qminus Qmult Qdiv Qopp Qinv inject_Z Qle_bool Qeq_bool].
  unfold zoom_curve.
  destruct (Qle_bool (inject_Z on) (inject_Z d)); reflexivity.
Qed.

(** The text that reaches the compositor for [d = 90] and a zoom written
    as [1.12] reads as the same expression, with the numbers in place of
    the fields. *)
Lemma emitted_z_expr_reads_as_template :
  let text := fstring z_expr_template
                (fun f => if String.eqb f "d" then Str.of_int 90 else "1.12"%string) in
  text = "if(lte(on, 90), 1+(1.12-1)*on/90, 1.12)"%string /\
  parse text =
  Some (If (Lte (Var "on") (Num 90))
          (Add (Num 1)
             (Div (Mul (Sub (Num (28 # 25)) (Num 1)) (Var "on")) (Num 90)))
          (Num (28 # 25))).
Proof. vm_compute. split; reflexivity. Qed.






















(** ** Fitting an image to the canvas *)

Section Fit.

Variable lanczos : image -> Z -> Z -> Z -> Z -> rgb.



(** Whatever [fit_image] returns has the size of the canvas. *)
Lemma fit_image_size (fit : string) (im out : image) (target_w target_h : Z) :
  fit_image lanczos fit im target_w target_h = Ok out ->
  width out = target_w /\ height out = target_h.
Proof.
  unfold fit_image, fit_cover, fit_contain.
  destruct (String.eqb fit "cover");
    destruct (Py.truediv target_w (width im)) as [rw | |]; cbn; try discriminate;
    destruct (Py.truediv target_h (height im)) as [rh | |]; cbn; try discriminate.
  - destruct (scaled_size (width im) (height im) (Py.max rw rh)) as [[sw sh] | |];
      cbn; try discriminate.
    destruct (PIL.resize lanczos im sw sh) as [r | |]; cbn; try discriminate.
    unfold PIL.crop.
    destruct (_ <? _); [discriminate |]. destruct (_ <? _); [discriminate |].
    intros [= <-]. cbn. lia.
  - destruct (scaled_size (width im) (height im) (Py.min rw rh)) as [[sw sh] | |];
      cbn; try discriminate.
    destruct (PIL.resize lanczos im sw sh) as [r | |]; cbn; try discriminate.
    unfold PIL.new. destruct (_ || _); cbn; [discriminate |].
    intros [= <-]. cbn. split; reflexivity.
Qed.

End Fit.

Local Open Scope string_scope.
Local Open Scope Q_scope.

Section ContainGeometry.

Variable lanczos : image -> Z -> Z -> Z -> Z -> rgb.



End ContainGeometry.

Local Close Scope Q_scope.




Local Open Scope Z_scope.

(** When the scaled image covers the canvas, the centred crop of the cover
    branch takes every pixel from it. *)
Lemma centred_crop_inside (resized out : image) (W H : Z) :
  0 <= W <= width resized -> 0 <= H <= height resized ->
  let left := (width resized - W) / 2 in
  let top := (height resized - H) / 2 in
  PIL.crop resized left top (left + W) (top + H) = Ok out ->
  width out = W /\ height out = H /\
  forall x y, 0 <= x < W -> 0 <= y < H ->
    pixel out x y = pixel resized (x + left) (y + top) /\
    inside resized (x + left) (y + top) = true.
Proof.
  intros HW HH left top. unfold PIL.crop.
  destruct (left + W <? left) eqn:E1; [discriminate |].
  destruct (top + H <? top) eqn:E2; [discriminate |].
  intros [= <-]. cbn [width height pixel].
  split; [lia |]. split; [lia |].
  intros x y Hx Hy.
  assert (Hin : inside resized (x + left) (y + top) = true).
  { unfold inside. rewrite !andb_true_iff, !Z.leb_le, !Z.ltb_lt.
    unfold left, top. lia. }
  rewrite Hin. split; reflexivity.
Qed.

(** C5 at a 1070 x 2000 page on the 1080 x 1920 canvas: the scale is
    [1080/1070], [1070 * scale] is [1079.9999999999998] as a float and
    truncates to 1079, so the crop starts at [left = -1] and the first
    column of the frame is padding, whatever the page shows. *)
Theorem cover_fit_pads_first_column
    (lanczos : image -> Z -> Z -> Z -> Z -> rgb) (px : Z -> Z -> rgb) :
  let page := {| width := 1070; height := 2000; pixel := px |} in
  (exists scale rh,
     Py.truediv 1080 1070 = Ok scale /\
     Py.truediv 1920 2000 = Ok rh /\
     Py.max scale rh = scale /\
     scaled_size 1070 2000 scale = Ok (1079, 2018) /\
     (1079 - 1080) / 2 = -1) /\
  exists out,
    fit_cover lanczos page 1080 1920 = Ok out /\
    width out = 1080 /\ height out = 1920 /\
    (forall y, pixel out 0 y = black) /\
    (forall x y, 1 <= x < 1080 -> 0 <= y < 1920 ->
       pixel out x y = lanczos page 1079 2018 (x - 1) (y + 49)).
Proof.
  intros page. split.
  - do 2 eexists.
    split; [vm_compute; reflexivity |]. split; [vm_compute; reflexivity |].
    split; [vm_compute; reflexivity |]. split; [vm_compute; reflexivity |].
    reflexivity.
  - set (resized := {| width := 1079; height := 2018;
                       pixel := lanczos page 1079 2018 |}).
    exists {| width := 1080; height := 1920;
              pixel := fun x y =>
                if inside resized (x + -1) (y + 49)
                then pixel resized (x + -1) (y + 49) else black |}.
    split; [vm_compute; reflexivity |].
    cbn [width height pixel]. repeat split.
    intros x y Hx Hy. unfold inside, resized; cbn [width height pixel].
    replace (x + -1) with (x - 1) by lia.
    replace ((0 <=? x - 1) && (x - 1 <? 1079) && (0 <=? y + 49)
             && (y + 49 <? 2018)) with true; [reflexivity |].
    symmetry. rewrite !andb_true_iff, !Z.leb_le, !Z.ltb_lt. lia.
Qed.

(** ** The evenness fix-up *)

Lemma ensure_even_dimensions_even (path : string) (im : image) (w : world) :
  fs w !! path = Some (Raster im) ->
  (width im / 2) * 2 = width im -> (height im / 2) * 2 = height im ->
  ensure_even_dimensions path w
  = ({| fs := fs w; log := log w ++ [EvOpen path] |}, Ok tt).
Proof.
  intros Hf Hw Hh. unfold ensure_even_dimensions, image_open. unfold_M.
  rewrite Hf. rewrite Hw, Hh, !Z.eqb_refl. reflexivity.
Qed.





(** ** Frame names *)

Local Open Scope string_scope.

Lemma digit_cases (x : Z) :
  0 <= x <= 9 ->
  x = 0 \/ x = 1 \/ x = 2 \/ x = 3 \/ x = 4 \/ x = 5 \/ x = 6 \/ x = 7 \/
  x = 8 \/ x = 9.
Proof. lia. Qed.


Lemma digit_char_value (x : Z) :
  0 <= x <= 9 -> Z.of_N (N_of_ascii (Str.digit_char x)) - 48 = x.
Proof.
  intros Hx.
  destruct (digit_cases x Hx) as [-> | [-> | [-> | [-> | [-> | [-> | [-> | [-> | [-> | ->]]]]]]]]];
    reflexivity.
Qed.

Lemma digits_fuel_enough (f1 f2 : nat) (n : Z) :
  (1 <= f1)%nat -> (1 <= f2)%nat ->
  0 <= n -> n < 2 ^ Z.of_nat f1 -> n < 2 ^ Z.of_nat f2 ->
  Str.digits_fuel f1 n = Str.digits_fuel f2 n.
Proof.
  revert f2 n. induction f1 as [| f1 IH]; intros f2 n H1 H2 Hn Hb1 Hb2; [lia |].
  destruct f2 as [| f2]; [lia |]. cbn [Str.digits_fuel].
  destruct (n <? 10)%Z eqn:E; [reflexivity |].
  apply Z.ltb_ge in E. f_equal.
  assert (Hhalf : forall f : nat, n < 2 ^ Z.of_nat (S f) ->
            (1 <= f)%nat /\ n / 10 < 2 ^ Z.of_nat f).
  { intros f Hb. rewrite Nat2Z.inj_succ, Z.pow_succ_r in Hb by lia.
    split; [| lia].
    destruct f; [cbn in Hb; lia | lia]. }
  destruct (Hhalf f1 Hb1), (Hhalf f2 Hb2).
  apply IH; try assumption. lia.
Qed.

Lemma digits_small (n : Z) :
  0 <= n < 10 -> Str.digits n = String (Str.digit_char n) "".
Proof.
  intros Hn. unfold Str.digits. cbn [Str.digits_fuel].
  replace (n <? 10)%Z with true by (symmetry; apply Z.ltb_lt; lia). reflexivity.
Qed.

Lemma digits_step (n : Z) :
  10 <= n ->
  Str.digits n = Str.digits (n / 10) ++ String (Str.digit_char (n mod 10)) "".
Proof.
  intros Hn. unfold Str.digits at 1. cbn [Str.digits_fuel].
  replace (n <? 10)%Z with false by (symmetry; apply Z.ltb_ge; lia).
  f_equal. unfold Str.digits.
  pose proof (Z.log2_spec n ltac:(lia)) as [_ Hlog].
  pose proof (Z.log2_nonneg n).
  pose proof (Z.log2_spec (n / 10) ltac:(lia)) as [_ Hlog'].
  pose proof (Z.log2_nonneg (n / 10)).
  assert (1 <= Z.log2 n) by (apply Z.log2_le_pow2; lia).
  apply digits_fuel_enough; try lia.
  - replace (Z.of_nat (Z.to_nat (Z.log2 n))) with (Z.pred (Z.succ (Z.log2 n))) by lia.
    rewrite Z.pow_succ_r in Hlog by lia.
    replace (Z.pred (Z.succ (Z.log2 n))) with (Z.log2 n) by lia. lia.
  - rewrite Nat2Z.inj_succ, Z2Nat.id by lia. exact Hlog'.
Qed.


Lemma ascii_compare_refl (c : ascii) : Ascii.compare c c = Eq.
Proof. unfold Ascii.compare. apply N.compare_refl. Qed.

Lemma string_compare_refl (s : string) : String.compare s s = Eq.
Proof.
  induction s as [| c s IH]; [reflexivity |].
  cbn [String.compare]. rewrite ascii_compare_refl. exact IH.
Qed.








(** ** The frame sequencer *)

Section Sequencer.

Variable lanczos : image -> Z -> Z -> Z -> Z -> rgb.
Variables (frames_dir fit : string) (W H : Z).


Lemma make_frame_ok (i : Z) (img : string) (im out : image) (w : world) :
  1 <= W -> 1 <= H -> W mod 2 = 0 -> H mod 2 = 0 ->
  fs w !! img = Some (Raster im) ->
  fit_image lanczos fit im W H = Ok out ->
  make_frame lanczos frames_dir W H fit i img w
  = ({| fs := <[frame_path frames_dir i := Raster out]> (fs w);
        log := (log w ++ [EvOpen img; EvSave (frame_path frames_dir i);
                          EvOpen (frame_path frames_dir i)])%list |}, Ok tt).
Proof.
  intros HW1 HH1 HW HH Hf Hfit.
  destruct (fit_image_size lanczos fit im out W H Hfit) as [Hw Hh].
  unfold make_frame, image_open, PIL.convert_rgb. unfold_M.
  rewrite Hf, Hfit.
  replace (negb (W mod 2 =? 0)%Z || negb (H mod 2 =? 0)%Z) with false
    by (rewrite HW, HH; reflexivity).
  unfold image_save. cbn [fs log].
  replace ((width out <? 1)%Z || (height out <? 1)%Z) with false
    by (symmetry; apply orb_false_iff; split; apply Z.ltb_ge; lia).
  cbn [fs log].
  fold (frame_path frames_dir i).
  rewrite (ensure_even_dimensions_even _ out); cbn [fs log].
  - rewrite <- !app_assoc. reflexivity.
  - apply lookup_insert_eq.
  - lia.
  - lia.
Qed.

Lemma saved_paths_app (l1 l2 : list event) :
  saved_paths (l1 ++ l2) = (saved_paths l1 ++ saved_paths l2)%list.
Proof. apply omap_app. Qed.

Lemma frames_loop_ok (images : list string) :
  1 <= W -> 1 <= H -> W mod 2 = 0 -> H mod 2 = 0 ->
  forall (i : Z) (w : world),
    (forall img, img ∈ images -> normalizable lanczos fit W H (fs w) img) ->
    (forall img k, img ∈ images -> img <> frame_path frames_dir k) ->
    exists w',
      frames_loop lanczos frames_dir W H fit i images w = (w', Ok tt) /\
      saved_paths (log w')
      = (saved_paths (log w)
         ++ (frame_path frames_dir <$> seqZ i (Z.of_nat (length images))))%list /\
      (forall k, i <= k < i + Z.of_nat (length images) ->
         exists out, fs w' !! frame_path frames_dir k = Some (Raster out) /\
                     width out = W /\ height out = H) /\
      (forall k out, fs w !! frame_path frames_dir k = Some (Raster out) ->
         width out = W /\ height out = H ->
         exists out', fs w' !! frame_path frames_dir k = Some (Raster out') /\
                      width out' = W /\ height out' = H).
Proof.
  intros HW1 HH1 HW HH.
  induction images as [| img rest IH]; intros i w Hnorm Hfresh.
  - exists w. cbn. rewrite app_nil_r. repeat split; [lia | eauto].
  - destruct (Hnorm img ltac:(left)) as (im & out & Hf & Hfit).
    destruct (fit_image_size lanczos fit im out W H Hfit) as [Hw Hh].
    cbn [frames_loop]. unfold mbind at 1, M_mbind, M_bind.
    rewrite (make_frame_ok i img im out w HW1 HH1 HW HH Hf Hfit).
    set (w1 := {| fs := <[frame_path frames_dir i := Raster out]> (fs w);
                  log := _ |}).
    destruct (IH (i + 1) w1) as (w' & Hrun & Hsaved & Hfiles & Hkeep).
    + intros img' Hin. destruct (Hnorm img' ltac:(right; exact Hin))
        as (im' & out' & Hf' & Hfit').
      exists im', out'. split; [| exact Hfit'].
      cbn [fs w1]. rewrite lookup_insert_ne; [exact Hf' |].
      intros Heq. apply (Hfresh img' i); [right; exact Hin | congruence].
    + intros img' k Hin. apply Hfresh. right; exact Hin.
    + exists w'. split; [exact Hrun |]. split; [| split].
      * rewrite Hsaved. cbn [log w1]. rewrite saved_paths_app.
        cbn [length]. rewrite Nat2Z.inj_succ.
        rewrite (seqZ_cons i) by lia. rewrite <- app_assoc. cbn.
        replace (Z.succ i) with (i + 1) by lia.
        replace (Z.pred (Z.succ (Z.of_nat (length rest))))
          with (Z.of_nat (length rest)) by lia.
        reflexivity.
      * intros k Hk. cbn [length] in Hk.
        destruct (Z.eq_dec k i) as [-> | Hne].
        -- apply (Hkeep i out); [| split; assumption].
           cbn [fs w1]. apply lookup_insert_eq.
        -- apply Hfiles. lia.
      * intros k out0 Hk0 Hdim.
        destruct (decide (frame_path frames_dir k = frame_path frames_dir i))
          as [Heq | Hne].
        -- apply (Hkeep k out); [| split; assumption].
           cbn [fs w1]. rewrite Heq. apply lookup_insert_eq.
        -- apply (Hkeep k out0); [| assumption].
           cbn [fs w1]. rewrite lookup_insert_ne by congruence. exact Hk0.
Qed.

End Sequencer.




(** ** Odd canvas *)

Section OddCanvas.

Variable lanczos : image -> Z -> Z -> Z -> Z -> rgb.
Variables (frames_dir fit : string) (W H : Z).
Hypothesis Hodd : W mod 2 <> 0 \/ H mod 2 <> 0.

Lemma odd_check_true : negb (W mod 2 =? 0)%Z || negb (H mod 2 =? 0)%Z = true.
Proof.
  apply orb_true_iff. destruct Hodd as [Ho | Ho]; [left | right];
    apply negb_true_iff, Z.eqb_neq; exact Ho.
Qed.

(** With an odd canvas one turn of the loop opens the image, fits it, and
    ends there: nothing is saved and the turn does not succeed. *)
Lemma make_frame_odd (i : Z) (img : string) (w : world) :
  exists r,
    make_frame lanczos frames_dir W H fit i img w
    = ({| fs := fs w; log := (log w ++ [EvOpen img])%list |}, r) /\
    r <> Ok tt /\
    (forall im out,
       fs w !! img = Some (Raster im) ->
       fit_image lanczos fit im W H = Ok out -> r = Exit even_msg) /\
    (forall im e,
       fs w !! img = Some (Raster im) ->
       fit_image lanczos fit im W H = Raise e -> r = Raise e) /\
    (fs w !! img = None -> r = Raise (FileNotFoundError img)).
Proof.
  unfold make_frame, image_open, PIL.convert_rgb. unfold_M.
  destruct (fs w !! img) as [[im | txt |] |] eqn:Hf;
    try (eexists; split; [reflexivity |]; repeat split; congruence).
  destruct (fit_image lanczos fit im W H) as [out | msg | e] eqn:Hfit.
  - rewrite odd_check_true. eexists; split; [reflexivity |].
    repeat split; congruence.
  - eexists; split; [reflexivity |]. repeat split; congruence.
  - eexists; split; [reflexivity |]. repeat split; congruence.
Qed.

Lemma make_frames_odd (img : string) (rest : list string) (w : world) :
  exists r,
    make_frames lanczos (img :: rest) frames_dir W H fit w
    = ({| fs := fs w;
          log := (log w ++ [EvMkdir frames_dir; EvOpen img])%list |}, r) /\
    r <> Ok tt /\
    (forall im out,
       fs w !! img = Some (Raster im) ->
       fit_image lanczos fit im W H = Ok out -> r = Exit even_msg) /\
    (forall im e,
       fs w !! img = Some (Raster im) ->
       fit_image lanczos fit im W H = Raise e -> r = Raise e) /\
    (fs w !! img = None -> r = Raise (FileNotFoundError img)).
Proof.
  unfold make_frames. cbn [frames_loop]. unfold mbind, M_mbind, M_bind, emit.
  set (w0 := {| fs := fs w; log := (log w ++ [EvMkdir frames_dir])%list |}).
  destruct (make_frame_odd 1 img w0) as (r & Hrun & Hne & Hexit & Hraise & Hmiss).
  rewrite Hrun. cbn [fs log w0]. rewrite <- app_assoc.
  exists r. split; [destruct r as [[] | |]; [congruence | reflexivity | reflexivity] |].
  auto.
Qed.

End OddCanvas.

Lemma saved_paths_snoc_other (l : list event) (e : event) :
  is_save e = false -> saved_paths (l ++ [e]) = saved_paths l.
Proof.
  intros He. rewrite saved_paths_app. destruct e; try discriminate;
    cbn; apply app_nil_r.
Qed.

Ltac no_saves :=
  repeat match goal with x := _ : world |- _ => subst x end;
  cbn [log fs]; repeat (rewrite saved_paths_app);
  cbn [saved_paths omap list_omap]; rewrite ?app_nil_r; reflexivity.

(** C1, as the code has it: with an odd target width or height the run
    never writes a frame and never succeeds, but the parity is tested
    inside the loop of [make_frames]: by then the compositor has been
    probed, the temporary directory, the work and the frames directory
    exist, and the first image has been opened and fitted in memory; only
    then the run exits with the even-numbers message. *)
Theorem odd_canvas_rejected_at_first_frame
    (lanczos : image -> Z -> Z -> Z -> Z -> rgb) (float_repr : pyfloat -> string)
    (E : env) (a : args) (w : world) :
  a_w a mod 2 <> 0 \/ a_h a mod 2 <> 0 ->
  exists w' r,
    main lanczos float_repr E a w = (w', r) /\
    r <> Ok tt /\
    saved_paths (log w') = saved_paths (log w) /\
    (forall img rest im out,
       ffmpeg_found E = true -> a_script a = None -> a_cbz a = None ->
       folder_images E (resolve E (default "" (a_images a))) = Some (img :: rest) ->
       fs w !! img = Some (Raster im) ->
       fit_image lanczos (a_fit a) im (a_w a) (a_h a) = Ok out ->
       r = Exit even_msg /\
       log w' =
       (log w ++
        [EvProbe ["ffmpeg"; "-version"];
         EvMkdir (parent_dir (resolve E (a_out a)));
         EvMkdtemp (tmp_name E);
         EvMkdir (Str.path_join (tmp_name E) "work");
         EvMkdir (Str.path_join (Str.path_join (tmp_name E) "work") "frames");
         EvOpen img;
         EvRmtree (tmp_name E)])%list).
Proof.
  intros Hodd. unfold main, check_ffmpeg.
  unfold mbind at 1 2, M_mbind, M_bind at 1 2. unfold emit at 1.
  destruct (ffmpeg_found E) eqn:Hff.
  2:{ unfold_M. eexists _, _. split; [reflexivity |]. cbn [log].
      split; [discriminate |]. split; [no_saves |]. intros; discriminate. }
  unfold mret at 1, M_mret, M_ret at 1. 
  unfold mbind at 1 2, M_mbind, M_bind at 1 2. unfold emit at 1. cbn [fs log].
  set (w0 := {| fs := fs w; log := _ |}).
  assert (Hscript : exists r0, read_script (a_script a) default_narration w0 = (w0, r0)
            /\ (a_script a = None -> r0 = Ok default_narration)).
  { unfold read_script. destruct (a_script a) as [p |]; [| eexists; split; eauto].
    destruct (fs w0 !! p) as [[? | txt |] |];
      try (eexists; split; [reflexivity | discriminate]).
    destruct (String.eqb (strip txt) ""); eexists; split; try reflexivity; discriminate. }
  destruct Hscript as (r0 & -> & Hr0).
  destruct r0 as [text | msg | e].
  2,3: (eexists _, _; split; [reflexivity |]; cbn [log w0];
        split; [discriminate |]; split; [no_saves |];
        intros ? ? ? ? _ Hs; specialize (Hr0 Hs); discriminate).
  unfold with_temporary_directory.
  unfold mbind at 1 2, M_mbind, M_bind at 1 2. unfold emit at 1. cbn [fs log w0].
  match goal with |- context [match ?acq ?w1 with _ => _ end] =>
    set (wa := w1);
    assert (Hacq : exists wb r, acq wa = (wb, r) /\
              saved_paths (log wb) = saved_paths (log wa) /\
              ((exists msg, r = Exit msg) \/ (exists img rest, r = Ok (img :: rest))) /\
              (a_cbz a = None ->
               wb = wa /\
               forall img rest,
                 folder_images E (resolve E (default "" (a_images a)))
                 = Some (img :: rest) -> r = Ok (img :: rest)))
  end.
  { destruct (a_cbz a) as [cbz |].
    - unfold extract_cbz.
      destruct (archive_images E (resolve E cbz)) as [[| m ms] |]; unfold_M;
        eexists _, _; (split; [reflexivity |]); cbn [log];
        (split; [no_saves |]); (split; [| discriminate]); eauto.
    - unfold collect_images_from_dir.
      destruct (folder_images E _) as [[| img rest] |] eqn:Hfold; unfold_M;
        eexists _, _; (split; [reflexivity |]); (split; [reflexivity |]);
        (split; [eauto |]); intros _; (split; [reflexivity |]);
        intros img' rest'; try discriminate.
      intros [= <- <-]. reflexivity. }
  destruct Hacq as (wb & r1 & -> & Hsb & Hshape & Hfolder).
  destruct Hshape as [(msg & ->) | (img & rest & ->)].
  { eexists _, _. split; [reflexivity |]. cbn [log].
    split; [discriminate |]. split; [rewrite saved_paths_snoc_other, Hsb by reflexivity; no_saves |].
    intros ? ? ? ? _ _ Hc Hf. destruct (Hfolder Hc) as [_ Hl].
    specialize (Hl _ _ Hf). discriminate. }
  unfold mbind at 1, M_mbind, M_bind at 1.
  destruct (make_frames_odd lanczos
              (Str.path_join (Str.path_join (tmp_name E) "work") "frames")
              (a_fit a) (a_w a) (a_h a) Hodd img rest wb)
    as (r & -> & Hne & Hexit & _).
  eexists _, r. split; [destruct r as [[] | |]; [congruence | reflexivity | reflexivity] |].
  split; [exact Hne |]. cbn [log]. split.
  { rewrite saved_paths_snoc_other by reflexivity. rewrite saved_paths_app, Hsb.
    cbn. rewrite app_nil_r. no_saves. }
  intros img' rest' im out _ Hs Hc Hf Hfile Hfit.
  destruct (Hfolder Hc) as [-> Hl]. specialize (Hl _ _ Hf).
  injection Hl as <- <-.
  split; [apply (Hexit im out); [exact Hfile | exact Hfit] |].
  cbn [log wa]. rewrite <- !app_assoc. reflexivity.
Qed.


Lemma odd_canvas_witness :
  exists w',
    main example_lanczos example_repr example_env (example_args 1080 1921)
      (initial example_files) = (w', Exit even_msg) /\
    saved_paths (log w') = [].
Proof.
  destruct (odd_canvas_rejected_at_first_frame example_lanczos example_repr
              example_env (example_args 1080 1921) (initial example_files))
    as (w' & r & Hrun & _ & Hsaved & Hexit).
  - right. cbn. lia.
  - destruct (Hexit "/pages/1.png" ["/pages/2.png"]
                {| width := 540; height := 480; pixel := fun _ _ => (1, 2, 3) |}
                (PIL.paste {| width := 1080; height := 1921; pixel := fun _ _ => black |}
                   {| width := 1080; height := 960;
                      pixel := example_lanczos
                                 {| width := 540; height := 480;
                                    pixel := fun _ _ => (1, 2, 3) |} 1080 960 |}
                   0 480))
      as [-> _]; try reflexivity.
    exists w'. split; [exact Hrun | exact Hsaved].
Defined.

(** C1 as stated fails on a canvas of 1080 x 1921: before the run exits
    with the even-numbers message it has created the temporary directory
    and two directories in it and has opened the first page; and when the
    first file is not an image, the run ends with the decoder's error
    instead of the configuration error. *)
Lemma odd_canvas_rejected_after_first_decode :
  let run := main example_lanczos example_repr example_env
               (example_args 1080 1921) (initial example_files) in
  let run' := main example_lanczos example_repr example_env
                (example_args 1080 1921)
                (initial (<["/pages/1.png" := Blob]> example_files)) in
  snd run = Exit even_msg /\
  log (fst run) =
    [EvProbe ["ffmpeg"; "-version"]; EvMkdir "/out"; EvMkdtemp "/tmp/t";
     EvMkdir "/tmp/t/work"; EvMkdir "/tmp/t/work/frames";
     EvOpen "/pages/1.png"; EvRmtree "/tmp/t"] /\
  snd run' = Raise (UnidentifiedImageError "/pages/1.png").
Proof. vm_compute. repeat split; reflexivity. Qed.

(** ** Capability checks *)





(** ** Natural order of names *)

Lemma string_app_cons (c : ascii) (a b : string) :
  String c a ++ b = String c (a ++ b).
Proof. reflexivity. Qed.

Lemma span_app (p : ascii -> bool) (s a b : string) :
  span p s = (a, b) -> s = a ++ b.
Proof.
  revert a b. induction s as [|c r IH]; intros a b; cbn.
  - intros [= <- <-]. reflexivity.
  - destruct (p c).
    + destruct (span p r) as [a' b'] eqn:Hs. intros [= <- <-].
      rewrite string_app_cons. f_equal. now apply IH.
    + intros [= <- <-]. reflexivity.
Qed.

Lemma span_rest (p : ascii -> bool) (s a b : string) :
  span p s = (a, b) ->
  match b with String c _ => p c = false | "" => True end.
Proof.
  revert a b. induction s as [|c r IH]; intros a b; cbn.
  - intros [= <- <-]. exact I.
  - destruct (p c) eqn:Hp.
    + destruct (span p r) as [a' b'] eqn:Hs. intros [= <- <-].
      now apply (IH a').
    + intros [= <- <-]. exact Hp.
Qed.

Lemma span_length (p : ascii -> bool) (s a b : string) :
  span p s = (a, b) ->
  (String.length a + String.length b = String.length s)%nat.
Proof.
  intros H. apply span_app in H. subst s.
  induction a as [|c a IH]; cbn; [reflexivity|].
  rewrite string_app_cons. cbn. lia.
Qed.

Lemma span_first (p : ascii -> bool) (s a b : string) :
  span p s = (a, b) -> span p a = (a, "").
Proof.
  revert a b. induction s as [|c r IH]; intros a b; cbn.
  - intros [= <- <-]. reflexivity.
  - destruct (p c) eqn:Hp.
    + destruct (span p r) as [a' b'] eqn:Hs. intros [= <- <-].
      cbn. rewrite Hp. now rewrite (IH a' b').
    + intros [= <- <-]. reflexivity.
Qed.



Lemma re_split_digits_fuel_enough (f1 f2 : nat) (s : string) :
  (String.length s <= f1)%nat -> (String.length s <= f2)%nat ->
  re_split_digits_fuel f1 s = re_split_digits_fuel f2 s.
Proof.
  revert f2 s. induction f1 as [|f1 IH]; intros f2 s H1 H2.
  - destruct s; [|cbn in H1; lia]. destruct f2; reflexivity.
  - destruct f2 as [|f2].
    + destruct s; [|cbn in H2; lia]. reflexivity.
    + cbn. destruct (span not_digit s) as [t r] eqn:Ht.
      destruct r as [|c r]; [reflexivity|].
      destruct (span is_digit (String c r)) as [d r'] eqn:Hd.
      pose proof (span_length _ _ _ _ Ht) as Lt.
      pose proof (span_length _ _ _ _ Hd) as Ld.
      pose proof (span_rest _ _ _ _ Ht) as Hc. cbn in Hc.
      assert (d <> "") as Hne.
      { intros ->. cbn in Hd. unfold not_digit in Hc.
        destruct (is_digit c); [|discriminate].
        destruct (span is_digit r); discriminate. }
      assert (1 <= String.length d)%nat by (destruct d; [congruence|cbn; lia]).
      f_equal. f_equal. apply IH; cbn in *; lia.
Qed.

(** One step of the split. *)
Lemma re_split_digits_eq (s : string) :
  re_split_digits s =
  let '(t, r) := span not_digit s in
  match r with
  | "" => [t]
  | _ => let '(d, r') := span is_digit r in t :: d :: re_split_digits r'
  end.
Proof.
  unfold re_split_digits. destruct s as [|a s]; [reflexivity|].
  cbn [String.length re_split_digits_fuel].
  destruct (span not_digit (String a s)) as [t r] eqn:Ht.
  destruct r as [|c r]; [reflexivity|].
  destruct (span is_digit (String c r)) as [d r'] eqn:Hd.
  pose proof (span_length _ _ _ _ Ht) as Lt.
  pose proof (span_length _ _ _ _ Hd) as Ld.
  pose proof (span_rest _ _ _ _ Ht) as Hc. cbn in Hc.
  assert (d <> "") as Hne.
  { intros ->. cbn in Hd. unfold not_digit in Hc.
    destruct (is_digit c); [|discriminate].
    destruct (span is_digit r); discriminate. }
  assert (1 <= String.length d)%nat by (destruct d; [congruence|cbn; lia]).
  f_equal. f_equal. apply re_split_digits_fuel_enough; cbn in *; lia.
Qed.

Lemma span_nonempty (c : ascii) (r d r' : string) :
  is_digit c = true -> span is_digit (String c r) = (d, r') ->
  exists d', d = String c d'.
Proof.
  cbn. intros ->. destruct (span is_digit r) as [a b]. intros [= <- <-].
  now exists a.
Qed.

Lemma span_all_digits (s a b : string) :
  span is_digit s = (a, b) -> all_digits a = true.
Proof.
  revert a b. induction s as [|c r IH]; intros a b; cbn.
  - intros [= <- <-]. reflexivity.
  - destruct (is_digit c) eqn:Hc.
    + destruct (span is_digit r) as [a' b'] eqn:Hs. intros [= <- <-].
      cbn. rewrite Hc. now apply (IH a' b').
    + intros [= <- <-]. reflexivity.
Qed.

Lemma span_isdigit (c : ascii) (r d r' : string) :
  is_digit c = true -> span is_digit (String c r) = (d, r') ->
  isdigit d = true.
Proof.
  intros Hc Hd. destruct (span_nonempty _ _ _ _ Hc Hd) as [d' ->].
  unfold isdigit. now rewrite (span_all_digits _ _ _ Hd).
Qed.

Lemma span_not_isdigit (s t r : string) :
  span not_digit s = (t, r) -> isdigit t = false.
Proof.
  intros H. apply span_first in H. unfold isdigit.
  destruct t as [|c t]; [reflexivity|]. cbn in *.
  unfold not_digit in H. destruct (is_digit c); [discriminate|reflexivity].
Qed.

Lemma rest_starts_with_digit (s t : string) (c : ascii) (r : string) :
  span not_digit s = (t, String c r) -> is_digit c = true.
Proof.
  intros H. apply span_rest in H. unfold not_digit in H.
  now destruct (is_digit c).
Qed.

(** One step of the key. *)
Lemma natural_sort_key_eq (s : string) :
  natural_sort_key s =
  let '(t, r) := span not_digit s in
  match r with
  | "" => [KStr (lower t)]
  | _ => let '(d, r') := span is_digit r in
         KStr (lower t) :: KInt (digits_value d 0) :: natural_sort_key r'
  end.
Proof.
  unfold natural_sort_key. rewrite re_split_digits_eq.
  destruct (span not_digit s) as [t r] eqn:Ht.
  pose proof (span_not_isdigit _ _ _ Ht) as Hn.
  destruct r as [|c r].
  - cbn. unfold key_of_piece. now rewrite Hn.
  - destruct (span is_digit (String c r)) as [d r'] eqn:Hd.
    pose proof (span_isdigit _ _ _ _ (rest_starts_with_digit _ _ _ _ Ht) Hd)
      as Hy.
    cbn [map]. unfold key_of_piece at 1 2. now rewrite Hn, Hy.
Qed.

Lemma string_length_induction (P : string -> Prop) :
  (forall s, (forall r, (String.length r < String.length s)%nat -> P r) -> P s) ->
  forall s, P s.
Proof.
  intros H s. remember (String.length s) as n eqn:Hn.
  revert s Hn. induction n as [n IH] using lt_wf_ind. intros s ->.
  apply H. intros r Hr. now apply (IH _ Hr).
Qed.

Lemma digit_run_shorter (s t : string) (c : ascii) (r d r' : string) :
  span not_digit s = (t, String c r) ->
  span is_digit (String c r) = (d, r') ->
  (String.length r' < String.length s)%nat.
Proof.
  intros Ht Hd.
  destruct (span_nonempty _ _ _ _ (rest_starts_with_digit _ _ _ _ Ht) Hd)
    as [d' ->].
  apply span_length in Ht, Hd. cbn in *. lia.
Qed.

Lemma natural_sort_key_alternating (s : string) :
  alternating (natural_sort_key s).
Proof.
  induction s as [s IH] using string_length_induction.
  rewrite natural_sort_key_eq.
  destruct (span not_digit s) as [t r] eqn:Ht.
  destruct r as [|c r]; [constructor|].
  destruct (span is_digit (String c r)) as [d r'] eqn:Hd.
  constructor. apply IH. eapply digit_run_shorter; eassumption.
Qed.

Lemma string_compare_eq (s t : string) : String.compare s t = Eq <-> s = t.
Proof.
  split; [apply String.compare_eq_iff|]. intros ->. apply string_compare_refl.
Qed.

Lemma key_compare_antisym (a b : list key_part) :
  key_compare b a = CompOpp <$> key_compare a b.
Proof.
  revert b. induction a as [|x a IH]; intros [|y b]; try reflexivity.
  - destruct y; reflexivity.
  - destruct x; reflexivity.
  - destruct x as [m|s], y as [n|t]; cbn; try reflexivity.
    + rewrite (Z.compare_antisym m n).
      destruct (m ?= n)%Z; cbn; [apply IH|reflexivity..].
    + rewrite (String.compare_antisym s t).
      destruct (String.compare t s); cbn; [apply IH|reflexivity..].
Qed.

Lemma key_compare_eq (a b : list key_part) :
  key_compare a b = Some Eq <-> a = b.
Proof.
  revert b. induction a as [|x a IH]; intros [|y b]; cbn.
  - tauto.
  - split; discriminate.
  - destruct x; split; discriminate.
  - destruct x as [m|s], y as [n|t].
    + destruct (Z.compare_spec m n) as [->| |]; rewrite ?IH;
        split; try discriminate; try (intros [= ? ?]; lia).
      * now intros ->.
      * now intros [= ->].
    + split; discriminate.
    + split; discriminate.
    + destruct (String.compare s t) eqn:Hc; rewrite ?IH.
      * apply string_compare_eq in Hc as ->. split; [now intros ->|now intros [= ->]].
      * split; [discriminate|]. intros [= -> ->].
        now rewrite string_compare_refl in Hc.
      * split; [discriminate|]. intros [= -> ->].
        now rewrite string_compare_refl in Hc.
Qed.

Lemma key_compare_alternating (a b : list key_part) :
  alternating a -> alternating b -> exists c, key_compare a b = Some c.
Proof.
  intros Ha. revert b. induction Ha as [t|t n k Hk IH]; intros b Hb;
    destruct Hb as [t'|t' n' k' Hk']; cbn.
  - destruct (String.compare t t'); eauto.
  - destruct (String.compare t t'); eauto.
  - destruct (String.compare t t'); eauto.
  - destruct (String.compare t t'); eauto.
    destruct (n ?= n')%Z; eauto.
Qed.

Lemma key_compare_total (a b : string) :
  exists c,
    key_compare (natural_sort_key a) (natural_sort_key b) = Some c /\
    key_compare (natural_sort_key b) (natural_sort_key a) = Some (CompOpp c) /\
    (c = Eq <-> natural_sort_key a = natural_sort_key b).
Proof.
  destruct (key_compare_alternating _ _ (natural_sort_key_alternating a)
              (natural_sort_key_alternating b)) as [c Hc].
  exists c. split; [exact Hc|]. split.
  - now rewrite key_compare_antisym, Hc.
  - rewrite <- key_compare_eq, Hc. split; [now intros ->|now intros [= ->]].
Qed.









Lemma key_compare_refl (a : list key_part) : key_compare a a = Some Eq.
Proof. now apply key_compare_eq. Qed.




Lemma is_digit_lower (c : ascii) : is_digit (lower_char c) = is_digit c.
Proof. destruct c as [[|] [|] [|] [|] [|] [|] [|] [|]]; reflexivity. Qed.

Lemma lower_char_idem (c : ascii) : lower_char (lower_char c) = lower_char c.
Proof. destruct c as [[|] [|] [|] [|] [|] [|] [|] [|]]; reflexivity. Qed.

Lemma lower_char_digit (c : ascii) : is_digit c = true -> lower_char c = c.
Proof.
  destruct c as [[|] [|] [|] [|] [|] [|] [|] [|]]; vm_compute; congruence.
Qed.

Lemma lower_idem (s : string) : lower (lower s) = lower s.
Proof. induction s; cbn; [reflexivity|]. now rewrite lower_char_idem, IHs. Qed.

Lemma lower_digits (d : string) : all_digits d = true -> lower d = d.
Proof.
  induction d as [|c d IH]; cbn; [reflexivity|].
  destruct (is_digit c) eqn:Hc; [|discriminate]. cbn. intros H.
  now rewrite lower_char_digit, IH.
Qed.

Lemma span_lower (p : ascii -> bool) (s : string) :
  (forall c, p (lower_char c) = p c) ->
  span p (lower s) = (lower (span p s).1, lower (span p s).2).
Proof.
  intros Hp. induction s as [|c s IH]; cbn; [reflexivity|].
  rewrite Hp. destruct (p c); [|reflexivity].
  rewrite IH. destruct (span p s). reflexivity.
Qed.

Lemma lower_length (s : string) : String.length (lower s) = String.length s.
Proof. induction s; cbn; congruence. Qed.

(** X3: The key does not see the case of letters: a name and its
    lower-case form have the same key. *)
Theorem natural_sort_key_ignores_case (s : string) :
  natural_sort_key (lower s) = natural_sort_key s.
Proof.
  induction s as [s IH] using string_length_induction.
  rewrite (natural_sort_key_eq (lower s)), (natural_sort_key_eq s).
  rewrite span_lower by (intros c; unfold not_digit; now rewrite is_digit_lower).
  destruct (span not_digit s) as [t r] eqn:Ht. cbn [fst snd].
  rewrite lower_idem.
  destruct r as [|c r]; [reflexivity|]. cbn [lower].
  change (String (lower_char c) (lower r)) with (lower (String c r)).
  rewrite span_lower by apply is_digit_lower.
  destruct (span is_digit (String c r)) as [d r'] eqn:Hd. cbn [fst snd].
  rewrite (lower_digits d) by (eapply span_all_digits; eassumption).
  rewrite IH by (eapply digit_run_shorter; eassumption). reflexivity.
Qed.

Lemma digits_value_zeros (k : nat) (d : string) :
  digits_value (Str.zeros k ++ d) 0 = digits_value d 0.
Proof.
  induction k as [|k IH]; [reflexivity|]. cbn [Str.zeros].
  rewrite string_app_cons. cbn [digits_value]. exact IH.
Qed.




(** ** The stable sort *)

Lemma ascii_compare_lt_trans (a b c : ascii) :
  Ascii.compare a b = Lt -> Ascii.compare b c = Lt -> Ascii.compare a c = Lt.
Proof.
  unfold Ascii.compare. rewrite !N.compare_lt_iff. lia.
Qed.

Lemma string_compare_lt_trans (s t u : string) :
  String.compare s t = Lt -> String.compare t u = Lt -> String.compare s u = Lt.
Proof.
  revert t u. induction s as [|a s IH]; intros [|b t] [|c u]; cbn;
    try congruence.
  destruct (Ascii.compare a b) eqn:Hab; try discriminate.
  - apply Ascii.compare_eq_iff in Hab as ->.
    destruct (Ascii.compare b c); try congruence. apply IH.
  - intros _. destruct (Ascii.compare b c) eqn:Hbc; try discriminate.
    + apply Ascii.compare_eq_iff in Hbc as <-. now rewrite Hab.
    + now rewrite (ascii_compare_lt_trans _ _ _ Hab Hbc).
Qed.

Lemma key_compare_lt_trans (a b c : list key_part) :
  key_compare a b = Some Lt -> key_compare b c = Some Lt ->
  key_compare a c = Some Lt.
Proof.
  revert b c. induction a as [|x a IH]; intros [|y b] [|z c];
    try (destruct x); try (destruct y); try (destruct z); cbn;
    try congruence.
  - destruct (Z.compare_spec n n0) as [->| |]; try discriminate.
    + destruct (n0 ?= n1)%Z; try congruence. apply IH.
    + intros _. destruct (Z.compare_spec n0 n1) as [->| |]; try discriminate.
      * now rewrite (proj2 (Z.compare_lt_iff n n1)).
      * now rewrite (proj2 (Z.compare_lt_iff n n1)) by lia.
  - destruct (String.compare s s0) eqn:Hab; try discriminate.
    + apply String.compare_eq_iff in Hab as ->.
      destruct (String.compare s0 s1); try congruence. apply IH.
    + intros _. destruct (String.compare s0 s1) eqn:Hbc; try discriminate.
      * apply String.compare_eq_iff in Hbc as <-. now rewrite Hab.
      * now rewrite (string_compare_lt_trans _ _ _ Hab Hbc).
Qed.

Lemma name_lt_asym (a b : string) : name_lt a b = true -> name_lt b a = false.
Proof.
  unfold name_lt, key_lt. rewrite (key_compare_antisym (natural_sort_key a)).
  destruct (key_compare (natural_sort_key a) (natural_sort_key b)) as [[]|];
    cbn; congruence.
Qed.

Lemma name_le_trans (a b c : string) :
  name_lt b a = false -> name_lt c b = false -> name_lt c a = false.
Proof.
  unfold name_lt, key_lt. intros Hab Hbc.
  destruct (key_compare_total a b) as (x & Hx & Hx' & Hxe).
  destruct (key_compare (natural_sort_key c) (natural_sort_key a))
    as [[]|] eqn:Hca; try reflexivity. exfalso.
  rewrite Hx' in Hab. destruct x; cbn in Hab; try discriminate.
  - rewrite <- (proj1 Hxe eq_refl), Hca in Hbc. discriminate.
  - rewrite (key_compare_lt_trans _ _ _ Hca Hx) in Hbc. discriminate.
Qed.

Section StableSort.

Context {A : Type} (lt : A -> A -> bool).

Hypothesis lt_asym : forall x y, lt x y = true -> lt y x = false.
Hypothesis le_trans :
  forall x y z, lt y x = false -> lt z y = false -> lt z x = false.

Lemma insert_sorted_perm (x : A) (l : list A) :
  Permutation (insert_sorted lt x l) (x :: l).
Proof.
  induction l as [|y l IH]; cbn; [reflexivity|].
  destruct (lt y x); [|reflexivity].
  rewrite IH. apply perm_swap.
Qed.


Lemma insert_sorted_sorted (x : A) (l : list A) :
  StronglySorted (fun a b => lt b a = false) l ->
  StronglySorted (fun a b => lt b a = false) (insert_sorted lt x l).
Proof.
  induction 1 as [|y l Hl IH Hy]; cbn.
  - repeat constructor.
  - destruct (lt y x) eqn:Hyx.
    + constructor; [exact IH|].
      rewrite insert_sorted_perm. constructor; [now apply lt_asym|exact Hy].
    + constructor; [now constructor|].
      constructor; [exact Hyx|].
      eapply Forall_impl; [exact Hy|]. intros z Hz. cbn in Hz.
      now apply (le_trans x y z).
Qed.

Lemma stable_sort_sorted (l : list A) :
  StronglySorted (fun a b => lt b a = false) (stable_sort lt l).
Proof.
  induction l as [|x l IH]; cbn; [constructor|].
  now apply insert_sorted_sorted.
Qed.

(** Items that the order does not separate keep their places. *)
Lemma stable_sort_stable (P : A -> bool) (l : list A) :
  (forall x y, P x = true -> P y = true -> lt y x = false) ->
  List.filter P (stable_sort lt l) = List.filter P l.
Proof.
  intros HP. induction l as [|x l IH]; [reflexivity|]. cbn [stable_sort].
  transitivity (List.filter P (x :: stable_sort lt l));
    [|cbn; now rewrite IH].
  generalize (stable_sort lt l). clear IH. intros s.
  induction s as [|y s IH]; [reflexivity|]. cbn [insert_sorted].
  destruct (lt y x) eqn:Hyx; [|reflexivity].
  cbn [List.filter] in *. rewrite IH.
  destruct (P x) eqn:Hx; [|reflexivity].
  destruct (P y) eqn:Hy; [|reflexivity].
  now rewrite (HP x y Hx Hy) in Hyx.
Qed.

End StableSort.

Lemma strongly_sorted_lookup {A} (R : A -> A -> Prop) (l : list A)
    (i j : nat) (a b : A) :
  StronglySorted R l -> (i < j)%nat ->
  l !! i = Some a -> l !! j = Some b -> R a b.
Proof.
  intros Hl. revert i j. induction Hl as [|x l Hl IH Hx]; intros i j Hij Hi Hj.
  - discriminate.
  - destruct j as [|j]; [lia|]. cbn in Hj. destruct i as [|i].
    + injection Hi as <-. rewrite Forall_forall in Hx. apply Hx.
      eapply list_elem_of_lookup_2. exact Hj.
    + cbn in Hi. apply (IH i j); [lia|assumption..].
Qed.

(** ** The directory scan *)

Lemma split_last_Some (c : ascii) (s a b : string) :
  split_last c s = Some (a, b) -> s = a ++ String c b /\ has_char c b = false.
Proof.
  revert a. induction s as [|x s IH]; intros a; cbn; [discriminate|].
  destruct (split_last c s) as [[a' b']|] eqn:Hs.
  - intros [= <- <-]. destruct (IH a' eq_refl) as [-> Hb].
    now rewrite string_app_cons.
  - destruct (Ascii.eqb x c) eqn:Hx; [|discriminate].
    intros [= <- <-]. apply Ascii.eqb_eq in Hx as ->. split; [reflexivity|].
    clear IH. induction s as [|y s IH]; [reflexivity|]. cbn in *.
    destruct (split_last c s) as [[? ?]|]; [discriminate|].
    destruct (Ascii.eqb y c); [discriminate|]. now apply IH.
Qed.

Lemma split_last_None (c : ascii) (s : string) :
  split_last c s = None <-> has_char c s = false.
Proof.
  induction s as [|x s IH]; cbn; [tauto|].
  destruct (split_last c s) as [[a b]|].
  - split; [discriminate|]. intros H. apply orb_false_iff in H as [_ H].
    apply IH in H. discriminate.
  - destruct (Ascii.eqb x c); cbn; [split; discriminate|]. tauto.
Qed.

Lemma split_last_app (c : ascii) (a b : string) :
  has_char c b = false -> split_last c (a ++ String c b) = Some (a, b).
Proof.
  intros Hb. apply split_last_None in Hb.
  induction a as [|x a IH].
  - change ("" ++ String c b) with (String c b). cbn.
    now rewrite Hb, Ascii.eqb_refl.
  - rewrite string_app_cons. cbn. now rewrite IH.
Qed.

Lemma string_app_assoc (a b c : string) : (a ++ b) ++ c = a ++ b ++ c.
Proof.
  induction a; [reflexivity|]. rewrite !string_app_cons. congruence.
Qed.

(** The name of [root / p] is the name of [p]. *)
Lemma path_name_join (root p : string) :
  path_name (Str.path_join root p) = path_name p.
Proof.
  unfold path_name, Str.path_join.
  destruct (split_last "/" p) as [[a b]|] eqn:Hp.
  - apply split_last_Some in Hp as [-> Hb].
    change (root ++ "/" ++ a ++ String "/" b)
      with (root ++ String "/" a ++ String "/" b).
    rewrite <- string_app_assoc.
    now rewrite split_last_app.
  - apply split_last_None in Hp.
    change (root ++ "/" ++ p) with (root ++ String "/" p).
    now rewrite split_last_app.
Qed.

Lemma lower_eq_cases (e : string) :
  In (lower e) ["jpg"; "jpeg"; "png"; "webp"] <->
  existsb (String.eqb (lower ("." ++ e))) IMG_EXTS = true.
Proof.
  change ("." ++ e) with (String "." e). cbn [lower].
  change (lower_char ".") with "."%char. unfold IMG_EXTS. cbn [existsb In].
  rewrite !orb_true_iff.
  repeat match goal with
  | |- context [String.eqb (String "." ?a) (String "." ?b)] =>
      change (String.eqb (String "." a) (String "." b)) with (String.eqb a b)
  end.
  rewrite !String.eqb_eq. intuition congruence.
Qed.

(** X5: A path counts as an image exactly when its name is a non-empty
    stem, a dot and one of jpg, jpeg, png, webp in any letter case, with
    no further dot after it. *)
Theorem image_suffix_iff (path : string) :
  has_image_suffix path = true <->
  exists stem ext,
    path_name path = stem ++ "." ++ ext /\ stem <> "" /\
    has_char "." ext = false /\
    In (lower ext) ["jpg"; "jpeg"; "png"; "webp"].
Proof.
  unfold has_image_suffix, path_suffix.
  destruct (split_last "." (path_name path)) as [[stem ext]|] eqn:Hs.
  - apply split_last_Some in Hs as [Hn He]. split.
    + destruct (String.eqb_spec stem ""); [discriminate|].
      destruct (String.eqb_spec ext ""); [discriminate|]. cbn [orb].
      intros H. exists stem, ext. repeat split; try assumption.
      now apply lower_eq_cases.
    + intros (stem' & ext' & Hn' & Hstem & He' & Hin).
      assert (Some (stem, ext) = Some (stem', ext')) as [= -> ->].
      { rewrite <- (split_last_app "." stem ext He).
        rewrite <- (split_last_app "." stem' ext' He').
        f_equal. rewrite <- Hn. exact Hn'. }
      destruct (String.eqb_spec stem' ""); [contradiction|].
      destruct (String.eqb_spec ext' "") as [->|].
      { cbn in Hin. intuition discriminate. }
      cbn [orb]. now apply lower_eq_cases.
  - split; [discriminate|]. intros (stem & ext & Hn & _ & He & _).
    rewrite Hn in Hs. change (stem ++ "." ++ ext) with (stem ++ String "." ext) in Hs.
    rewrite split_last_app in Hs by assumption. discriminate.
Qed.

Lemma image_suffix_witness : has_image_suffix "/pages/Cover.JPG" = true.
Proof.
  apply (proj2 (image_suffix_iff "/pages/Cover.JPG")).
  exists "Cover", "JPG". split; [reflexivity|]. split; [discriminate|].
  split; [reflexivity|]. left. reflexivity.
Defined.

Lemma map_lookup_inv {A B} (f : A -> B) (l : list A) (i : nat) (b : B) :
  map f l !! i = Some b -> exists a, l !! i = Some a /\ b = f a.
Proof.
  revert i. induction l as [|x l IH]; intros [|i]; cbn; try discriminate.
  - intros [= <-]. now exists x.
  - apply IH.
Qed.

Lemma filter_map {A B} (P : B -> bool) (f : A -> B) (l : list A) :
  List.filter P (map f l) = map f (List.filter (fun a => P (f a)) l).
Proof.
  induction l as [|x l IH]; cbn; [reflexivity|].
  destruct (P (f x)); cbn; now rewrite IH.
Qed.

Lemma filter_ext_bool {A} (P Q : A -> bool) (l : list A) :
  (forall a, P a = Q a) -> List.filter P l = List.filter Q l.
Proof.
  intros H. induction l as [|x l IH]; cbn; [reflexivity|].
  now rewrite H, IH.
Qed.

Lemma same_key_eq (a b : string) :
  same_key a b = true <-> natural_sort_key a = natural_sort_key b.
Proof.
  unfold same_key. rewrite <- key_compare_eq.
  destruct (key_compare _ _) as [[]|]; split; congruence.
Qed.

Lemma same_key_not_lt (n a b : string) :
  same_key n a = true -> same_key n b = true -> name_lt b a = false.
Proof.
  rewrite !same_key_eq. intros Ha Hb. unfold name_lt, key_lt.
  now rewrite <- Ha, <- Hb, key_compare_refl.
Qed.

(** X6: What the scan returns is in natural order of the file names,
    whatever folders the files are in: no path is listed after one whose
    name has a greater key; and the paths whose names have the same key
    stay in the order in which the walk met them. *)
Theorem sorted_images_in_natural_order (root : string)
    (entries : list dir_entry) :
  (forall i j a b, (i < j)%nat ->
     sorted_images root entries !! i = Some a ->
     sorted_images root entries !! j = Some b ->
     name_lt (path_name b) (path_name a) = false) /\
  (forall n,
     List.filter (fun a => same_key n (path_name a))
       (sorted_images root entries) =
     List.filter (fun a => same_key n (path_name a))
       (map (fun p => Str.path_join root (entry_path p))
          (List.filter is_image_entry entries))).
Proof.
  unfold sorted_images. split.
  - intros i j a b Hij Ha Hb.
    apply map_lookup_inv in Ha as (p & Hp & ->).
    apply map_lookup_inv in Hb as (q & Hq & ->).
    rewrite !path_name_join.
    refine (strongly_sorted_lookup (fun x y => entry_lt y x = false) _ i j p q
              _ Hij Hp Hq).
    apply stable_sort_sorted.
    + intros x y. apply name_lt_asym.
    + intros x y z. apply name_le_trans.
  - intros n. rewrite !filter_map. f_equal.
    apply stable_sort_stable. intros x y Hx Hy.
    rewrite path_name_join in Hx, Hy. exact (same_key_not_lt n _ _ Hx Hy).
Qed.

Lemma sorted_images_order_witness :
  name_lt (path_name "/pages/10.png") (path_name "/pages/2.png") = false.
Proof.
  apply (proj1 (sorted_images_in_natural_order "/pages"
                  [mk_entry "10.png" true; mk_entry "2.png" true])
           0%nat 1%nat "/pages/2.png" "/pages/10.png");
    [lia | reflexivity | reflexivity].
Defined.





(** ** The narration script *)








(** Without a script path the default narration is used; a path with no
    file behind it ends the run with "Script file not found"; in both
    cases nothing is touched. *)
Lemma read_script_missing (path default_text : string) (w : world) :
  fs w !! path = None ->
  read_script (Some path) default_text w
  = (w, Exit ("Script file not found: " ++ path)).
Proof. intros H. unfold read_script. now rewrite H. Qed.

(** ** What the frame loop touches *)

Section FrameWrites.

Variable lanczos : image -> Z -> Z -> Z -> Z -> rgb.
Variables (frames_dir fit : string) (W H : Z).

Lemma image_save_touches (im : image) (path p : string) (w : world) :
  p <> path -> fs (image_save im path w).1 !! p = fs w !! p.
Proof.
  intros Hp. unfold image_save.
  destruct ((width im <? 1)%Z || (height im <? 1)%Z); cbn [fst fs].
  - destruct (fs w !! path); [|reflexivity]. now rewrite lookup_insert_ne.
  - now rewrite lookup_insert_ne.
Qed.

Lemma ensure_even_dimensions_touches (path p : string) (w : world) :
  p <> path -> fs (ensure_even_dimensions path w).1 !! p = fs w !! p.
Proof.
  intros Hp. unfold ensure_even_dimensions, image_open. unfold_M.
  destruct (fs w !! path) as [[im| |]|]; try reflexivity.
  match goal with |- context [if ?b then _ else _] => destruct b end;
    [reflexivity|].
  destruct (PIL.crop _ _ _ _ _); try reflexivity.
  now rewrite image_save_touches.
Qed.

Lemma make_frame_touches (i : Z) (img p : string) (w : world) :
  p <> frame_path frames_dir i ->
  fs (make_frame lanczos frames_dir W H fit i img w).1 !! p = fs w !! p.
Proof.
  intros Hp. unfold make_frame, image_open. unfold_M.
  fold (frame_path frames_dir i).
  destruct (fs w !! img) as [[im| |]|]; try reflexivity.
  destruct (fit_image _ _ _ _ _); try reflexivity.
  destruct (negb (W mod 2 =? 0)%Z || negb (H mod 2 =? 0)%Z); [reflexivity|].
  destruct (image_save _ _ _) as [w1 r1] eqn:Hs.
  assert (fs w1 !! p = fs w !! p) as Hw1.
  { change w1 with (w1, r1).1. rewrite <- Hs.
    now rewrite image_save_touches. }
  destruct r1; try exact Hw1.
  now rewrite ensure_even_dimensions_touches.
Qed.

Lemma frames_loop_touches (images : list string) (i : Z) (p : string)
    (w : world) :
  (forall k, p <> frame_path frames_dir k) ->
  fs (frames_loop lanczos frames_dir W H fit i images w).1 !! p = fs w !! p.
Proof.
  intros Hp. revert i w. induction images as [|img rest IH]; intros i w;
    [reflexivity|].
  cbn [frames_loop]. unfold mbind, M_mbind, M_bind.
  pose proof (make_frame_touches i img p w (Hp i)) as Hm.
  destruct (make_frame _ _ _ _ _ _ _ _) as [w1 r1]. cbn [fst] in Hm.
  destruct r1; try exact Hm. now rewrite IH.
Qed.

Lemma frames_loop_app (l1 l2 : list string) (i : Z) (w : world) :
  frames_loop lanczos frames_dir W H fit i (l1 ++ l2) w =
  match frames_loop lanczos frames_dir W H fit i l1 w with
  | (w1, Ok _) =>
      frames_loop lanczos frames_dir W H fit (i + Z.of_nat (length l1)) l2 w1
  | other => other
  end.
Proof.
  revert i w. induction l1 as [|img l1 IH]; intros i w.
  - cbn. now rewrite Z.add_0_r.
  - cbn [app frames_loop length]. unfold mbind, M_mbind, M_bind.
    destruct (make_frame _ _ _ _ _ _ _ _) as [w1 [[]| |]]; try reflexivity.
    rewrite IH. now replace (i + 1 + Z.of_nat (length l1))
      with (i + Z.of_nat (S (length l1))) by lia.
Qed.

End FrameWrites.

(** X9: The frame loop writes frame files and nothing else: whatever the
    images are and however the call ends, a path that is not a frame of
    [frames_dir] holds afterwards what it held before.  The source images
    are never altered. *)
Theorem make_frames_writes_only_frames
    (lanczos : image -> Z -> Z -> Z -> Z -> rgb)
    (images : list string) (frames_dir fit : string) (W H : Z)
    (w : world) (p : string) :
  (forall k, p <> frame_path frames_dir k) ->
  fs (make_frames lanczos images frames_dir W H fit w).1 !! p = fs w !! p.
Proof.
  intros Hp. unfold make_frames. unfold_M.
  now rewrite frames_loop_touches.
Qed.

Lemma make_frames_writes_only_frames_witness :
  fs (make_frames example_lanczos ["/pages/1.png"; "/pages/2.png"]
        "/tmp/t/work/frames" 1080 1920 "contain" (initial example_files)).1
    !! "/pages/1.png"
  = example_files !! "/pages/1.png".
Proof.
  apply (make_frames_writes_only_frames example_lanczos
           ["/pages/1.png"; "/pages/2.png"] "/tmp/t/work/frames" "contain"
           1080 1920 (initial example_files) "/pages/1.png").
  intros k. unfold frame_path, Str.path_join. discriminate.
Defined.

(** X10: The loop stops at the first image that cannot be opened: the images
    before it have their frames, the error names the offending path, and
    opening it is the last thing that happens; the images after it are
    not looked at. *)
Theorem make_frames_stops_at_first_bad_image
    (lanczos : image -> Z -> Z -> Z -> Z -> rgb)
    (good : list string) (bad : string) (rest : list string)
    (frames_dir fit : string) (W H : Z) (w : world) :
  1 <= W -> 1 <= H -> W mod 2 = 0 -> H mod 2 = 0 ->
  (forall img, img ∈ good -> normalizable lanczos fit W H (fs w) img) ->
  (forall img k, img ∈ good -> img <> frame_path frames_dir k) ->
  (forall k, bad <> frame_path frames_dir k) ->
  (forall im, fs w !! bad <> Some (Raster im)) ->
  exists w',
    make_frames lanczos (good ++ bad :: rest) frames_dir W H fit w
    = (w', Raise (match fs w !! bad with
                  | Some _ => UnidentifiedImageError bad
                  | None => FileNotFoundError bad
                  end)) /\
    saved_paths (log w')
    = (saved_paths (log w)
       ++ (frame_path frames_dir <$> seqZ 1 (Z.of_nat (length good))))%list /\
    last (log w') = Some (EvOpen bad).
Proof.
  intros HW1 HH1 HW HH Hnorm Hfresh Hbad Hnot.
  unfold make_frames. unfold mbind at 1, M_mbind, M_bind, emit.
  set (w0 := {| fs := fs w; log := (log w ++ [EvMkdir frames_dir])%list |}).
  destruct (frames_loop_ok lanczos frames_dir fit W H good HW1 HH1 HW HH 1 w0
              Hnorm Hfresh) as (w1 & Hrun & Hsaved & _ & _).
  rewrite frames_loop_app, Hrun.
  pose proof (frames_loop_touches lanczos frames_dir fit W H good 1 bad w0 Hbad)
    as Hsame.
  rewrite Hrun in Hsame. cbn [fst fs w0] in Hsame.
  cbn [frames_loop]. unfold mbind at 1, M_mbind, M_bind.
  unfold make_frame, image_open. unfold_M. rewrite Hsame.
  exists {| fs := fs w1; log := (log w1 ++ [EvOpen bad])%list |}.
  split; [|split].
  - destruct (fs w !! bad) as [[im| |]|] eqn:Hb; try reflexivity.
    now destruct (Hnot im).
  - cbn [log]. rewrite saved_paths_app, Hsaved. cbn [log w0].
    rewrite saved_paths_app. cbn. now rewrite !app_nil_r.
  - cbn [log]. apply last_snoc.
Qed.

Lemma make_frames_stops_witness :
  exists w',
    make_frames example_lanczos ["/pages/1.png"; "/pages/cover.txt"; "/pages/2.png"]
      "/tmp/t/work/frames" 1080 1920 "contain" (initial example_files)
    = (w', Raise (FileNotFoundError "/pages/cover.txt")) /\
    saved_paths (log w') = ["/tmp/t/work/frames/frame_00001.png"].
Proof.
  destruct (make_frames_stops_at_first_bad_image example_lanczos
              ["/pages/1.png"] "/pages/cover.txt" ["/pages/2.png"]
              "/tmp/t/work/frames" "contain" 1080 1920 (initial example_files))
    as (w' & Hrun & Hsaved & _).
  - lia.
  - lia.
  - reflexivity.
  - reflexivity.
  - intros img Hin. apply list_elem_of_singleton in Hin as ->.
    eexists _, _. split; [reflexivity | vm_compute; reflexivity].
  - intros img k Hin. apply list_elem_of_singleton in Hin as ->.
    unfold frame_path, Str.path_join. discriminate.
  - intros k. unfold frame_path, Str.path_join. discriminate.
  - intros im. vm_compute. discriminate.
  - exists w'. split; [exact Hrun | exact Hsaved].
Defined.

(** ** The intermediate video *)

Lemma string_length_app (a b : string) :
  String.length (a ++ b) = (String.length a + String.length b)%nat.
Proof.
  induction a as [|c a IH]; [reflexivity|]. rewrite string_app_cons. cbn.
  now rewrite IH.
Qed.

Lemma string_app_inv_head (a b c : string) : a ++ b = a ++ c -> b = c.
Proof.
  induction a as [|x a IH]; [exact id|]. rewrite !string_app_cons.
  intros [= H]. now apply IH.
Qed.

Lemma has_char_app (c : ascii) (a b : string) :
  has_char c (a ++ b) = has_char c a || has_char c b.
Proof.
  induction a as [|x a IH]; [reflexivity|]. rewrite string_app_cons. cbn.
  now rewrite IH, orb_assoc.
Qed.

Lemma string_app_longer (a b : string) : b <> "" -> a ++ b <> a.
Proof.
  intros Hb Heq. apply (f_equal String.length) in Heq.
  rewrite string_length_app in Heq. destruct b; [congruence|cbn in Heq; lia].
Qed.

(** A path is its parent and its name; the name has no slash. *)
Lemma path_split (path : string) :
  exists parent,
    path = parent ++ path_name path /\
    has_char "/" (path_name path) = false /\
    (forall name, has_char "/" name = false ->
       path_name (parent ++ name) = name /\
       parent_dir (parent ++ name) = parent_dir path) /\
    forall suffix, with_suffix path suffix =
      parent ++ match split_last "." (path_name path) with
                | Some (stem, ext) =>
                    if String.eqb stem "" || String.eqb ext ""
                    then path_name path ++ suffix else stem ++ suffix
                | None => path_name path ++ suffix
                end.
Proof.
  unfold path_name, parent_dir, with_suffix.
  destruct (split_last "/" path) as [[dir name]|] eqn:Hs.
  - apply split_last_Some in Hs as [-> Hname]. exists (dir ++ "/").
    split; [now rewrite string_app_assoc|]. split; [exact Hname|]. split.
    + intros n Hn. rewrite string_app_assoc.
      change ("/" ++ n) with (String "/" n).
      now rewrite split_last_app.
    + intros suffix. destruct (split_last "." name) as [[stem ext]|];
        [destruct (_ || _)|]; reflexivity.
  - apply split_last_None in Hs. exists "".
    split; [reflexivity|]. split; [exact Hs|]. split.
    + intros n Hn. change ("" ++ n) with n. apply split_last_None in Hn.
      now rewrite Hn.
    + intros suffix. destruct (split_last "." path) as [[stem ext]|];
        [destruct (_ || _)|]; reflexivity.
Qed.

(** X11: The intermediate silent video is a sibling of the output: its path
    is never the output path, it has another name, and it lies in the
    directory of the output (not in the temporary directory). *)
Theorem temp_video_beside_output (out_mp4 : string) :
  path_name out_mp4 <> "" ->
  let temp_video := with_suffix out_mp4 ".silent.mp4" in
  temp_video <> out_mp4 /\
  path_name temp_video <> path_name out_mp4 /\
  parent_dir temp_video = parent_dir out_mp4.
Proof.
  intros _ temp_video.
  destruct (path_split out_mp4) as (parent & Hpath & Hname & Hsib & Hsuf).
  set (name := path_name out_mp4) in *.
  assert (exists new,
    temp_video = parent ++ new /\ has_char "/" new = false /\ new <> name)
    as (new & Htemp & Hnew & Hne).
  { unfold temp_video. rewrite Hsuf.
    destruct (split_last "." name) as [[stem ext]|] eqn:Hdot.
    - apply split_last_Some in Hdot as [Hn Hext].
      destruct (String.eqb stem "" || String.eqb ext "").
      + exists (name ++ ".silent.mp4"). split; [reflexivity|]. split.
        * now rewrite has_char_app, Hname.
        * now apply string_app_longer.
      + exists (stem ++ ".silent.mp4"). split; [reflexivity|]. split.
        * rewrite Hn, has_char_app in Hname.
          apply orb_false_iff in Hname as [Hstem _].
          now rewrite has_char_app, Hstem.
        * rewrite Hn. intros Heq. apply string_app_inv_head in Heq.
          injection Heq as <-. discriminate Hext.
    - exists (name ++ ".silent.mp4"). split; [reflexivity|]. split.
      + now rewrite has_char_app, Hname.
      + now apply string_app_longer. }
  destruct (Hsib new Hnew) as [Hn1 Hp1].
  rewrite Htemp. split; [|split].
  - intros Heq. rewrite Hpath in Heq.
    now apply string_app_inv_head in Heq.
  - now rewrite Hn1.
  - exact Hp1.
Qed.

Lemma temp_video_beside_output_witness :
  with_suffix "/out/output.mp4" ".silent.mp4" <> "/out/output.mp4" /\
  path_name (with_suffix "/out/output.mp4" ".silent.mp4") <> "output.mp4" /\
  parent_dir (with_suffix "/out/output.mp4" ".silent.mp4") = "/out".
Proof.
  apply (temp_video_beside_output "/out/output.mp4"). discriminate.
Defined.

(** ** The two compositor calls *)





(** ** What a run leaves behind *)

Lemma spares_bind {A B} (p : string) (m : M A) (k : A -> M B) :
  spares p m -> (forall a, spares p (k a)) -> spares p (m ≫= k).
Proof.
  intros Hm Hk w. unfold mbind, M_mbind, M_bind.
  specialize (Hm w). destruct (m w) as [w1 [a| |]]; cbn [fst] in *;
    try exact Hm.
  now rewrite Hk.
Qed.

Lemma spares_emit (p : string) (e : event) : spares p (emit e).
Proof. intros w. reflexivity. Qed.

Lemma spares_lift {A} (p : string) (o : outcome A) : spares p (lift o).
Proof. intros w. reflexivity. Qed.

Lemma spares_check_ffmpeg (E : env) (p : string) : spares p (check_ffmpeg E).
Proof.
  unfold check_ffmpeg. apply spares_bind; [apply spares_emit|]. intros _.
  destruct (ffmpeg_found E); apply spares_lift.
Qed.

Lemma spares_read_script (p : string) (path : option string) (d : string) :
  spares p (read_script path d).
Proof.
  intros w. unfold read_script. destruct path as [q|]; [|reflexivity].
  destruct (fs w !! q) as [[| content |]|]; try reflexivity.
  now destruct (String.eqb _ _).
Qed.

Lemma spares_collect (E : env) (p folder : string) :
  spares p (collect_images_from_dir E folder).
Proof.
  intros w. unfold collect_images_from_dir.
  now destruct (folder_images E folder) as [[|]|].
Qed.

Lemma spares_extract_cbz (E : env) (p cbz out_dir : string) :
  (forall name, p <> Str.path_join out_dir name) ->
  spares p (extract_cbz E cbz out_dir).
Proof.
  intros Hp. unfold extract_cbz.
  destruct (archive_images E cbz) as [members|]; [|apply spares_lift].
  apply spares_bind; [apply spares_emit|]. intros _.
  apply spares_bind.
  - intros w. cbn [fst fs]. induction members as [|m l IH]; [reflexivity|].
    cbn [foldr]. now rewrite lookup_insert_ne.
  - intros _. destruct members; apply spares_lift.
Qed.

Lemma spares_make_frames (lanczos : image -> Z -> Z -> Z -> Z -> rgb)
    (p : string) (images : list string) (frames_dir fit : string) (W H : Z) :
  (forall k, p <> frame_path frames_dir k) ->
  spares p (make_frames lanczos images frames_dir W H fit).
Proof.
  intros Hp w. unfold make_frames. unfold_M. now rewrite frames_loop_touches.
Qed.

Lemma spares_synth (E : env) (p text out voice rate : string) :
  p <> out -> spares p (synth_tts_edge E text out voice rate).
Proof.
  intros Hp. unfold synth_tts_edge.
  apply spares_bind; [destruct (edge_tts_imported E); apply spares_lift|].
  intros _. apply spares_bind; [apply spares_emit|]. intros _.
  destruct (synth_error E); [apply spares_lift|].
  intros w. cbn [fst fs]. now rewrite lookup_insert_ne.
Qed.

Lemma spares_run (E : env) (p : string) (cmd : list string) :
  spares p (run E cmd).
Proof.
  unfold run. apply spares_bind; [apply spares_emit|]. intros _.
  destruct (_ =? _)%Z; apply spares_lift.
Qed.

Lemma spares_produced (p path : string) : p <> path -> spares p (produced path).
Proof. intros Hp w. cbn. now rewrite lookup_insert_ne. Qed.

Lemma spares_unlink (p path : string) : p <> path -> spares p (unlink path).
Proof. intros Hp w. cbn. now rewrite lookup_delete_ne. Qed.

Lemma spares_build_video (float_repr : pyfloat -> string) (E : env)
    (p frames_dir audio_mp3 out_mp4 : string) (fps : Z)
    (seconds_per_image zoom : pyfloat) (pan : string) (crf : Z) :
  p <> out_mp4 -> p <> with_suffix out_mp4 ".silent.mp4" ->
  spares p (build_video_with_kenburns float_repr E frames_dir audio_mp3
              out_mp4 fps seconds_per_image zoom pan crf).
Proof.
  intros Hout Htemp. unfold build_video_with_kenburns.
  apply spares_bind; [apply spares_lift|]. intros d.
  destruct (pan_exprs pan) as [x_expr y_expr]. cbv zeta.
  apply spares_bind; [apply spares_run|]. intros _.
  apply spares_bind; [now apply spares_produced|]. intros _.
  apply spares_bind; [apply spares_run|]. intros _.
  apply spares_bind; [now apply spares_produced|]. intros _.
  now apply spares_unlink.
Qed.

Lemma string_prefix_app (a b : string) : String.prefix a (a ++ b) = true.
Proof.
  induction a as [|c a IH].
  - change ("" ++ b) with b. now destruct b.
  - rewrite string_app_cons. cbn.
    destruct (ascii_dec c c); [exact IH|congruence].
Qed.

Lemma under_join (tmp p a rest : string) :
  String.prefix (tmp ++ "/") p = false ->
  p <> Str.path_join (Str.path_join tmp a) rest.
Proof.
  intros Hp ->. unfold Str.path_join in Hp.
  rewrite !string_app_assoc, <- (string_app_assoc tmp "/") in Hp.
  now rewrite string_prefix_app in Hp.
Qed.

Lemma under_join2 (tmp p a b rest : string) :
  String.prefix (tmp ++ "/") p = false ->
  p <> Str.path_join (Str.path_join (Str.path_join tmp a) b) rest.
Proof.
  intros Hp ->. unfold Str.path_join in Hp.
  rewrite !string_app_assoc, <- (string_app_assoc tmp "/") in Hp.
  now rewrite string_prefix_app in Hp.
Qed.

(** X13: A run of [main], however it ends, leaves no file below the temporary
    directory (given that the directory is a new one), and changes no
    file outside it other than the output video and the intermediate
    video beside it: the pages, extracted or not, the frames and the
    narration are all kept below the temporary directory. *)
Theorem main_leaves_only_the_video
    (lanczos : image -> Z -> Z -> Z -> Z -> rgb)
    (float_repr : pyfloat -> string) (E : env) (a : args) (w : world) :
  (forall p, String.prefix (tmp_name E ++ "/") p = true -> fs w !! p = None) ->
  let w' := (main lanczos float_repr E a w).1 in
  let out_mp4 := resolve E (a_out a) in
  (forall p, String.prefix (tmp_name E ++ "/") p = true -> fs w' !! p = None) /\
  (forall p, String.prefix (tmp_name E ++ "/") p = false ->
     p <> out_mp4 -> p <> with_suffix out_mp4 ".silent.mp4" ->
     fs w' !! p = fs w !! p).
Proof.
  intros Hfresh w' out_mp4. subst w'.
  remember (main lanczos float_repr E a w) as res eqn:Hres.
  unfold main in Hres. fold out_mp4 in Hres.
  unfold mbind at 1, M_mbind at 1, M_bind at 1 in Hres.
  pose proof (fun p => spares_check_ffmpeg E p w) as H1.
  destruct (check_ffmpeg E w) as [w1 [[]| |]]; cbn [fst] in *;
    [|subst res; split; intros p Hp; cbn [fst]; rewrite H1; auto..].
  unfold mbind at 1, M_mbind at 1, M_bind at 1, emit in Hres.
  unfold mbind at 1, M_mbind at 1, M_bind at 1 in Hres.
  match type of Hres with
  | context [read_script ?s ?d ?w0] =>
      pose proof (fun p => spares_read_script p s d w0) as H2;
      destruct (read_script s d w0) as [ws [text| |]]
  end; cbn [fst fs] in *;
    [|subst res; split; intros p Hp; cbn [fst]; rewrite H2, H1; auto..].
  unfold with_temporary_directory in Hres.
  match type of Hres with
  | context [let '(w3, r) := ?body ?w0 in _] =>
      assert (forall p, String.prefix (tmp_name E ++ "/") p = false ->
                p <> out_mp4 -> p <> with_suffix out_mp4 ".silent.mp4" ->
                fs (body w0).1 !! p = fs w0 !! p) as H3;
      [|destruct (body w0) as [wb r]]
  end.
  { intros p Hp Hout Htemp.
    apply spares_bind; [apply spares_emit|]. intros _.
    apply spares_bind.
    { destruct (a_cbz a); [|apply spares_collect].
      apply spares_extract_cbz. intros name. now apply under_join2. }
    intros imgs. apply spares_bind.
    { apply spares_make_frames. intros k. now apply under_join2. }
    intros _. apply spares_bind.
    { apply spares_synth. now apply under_join. }
    intros _. now apply spares_build_video. }
  subst res. cbn [fst fs] in *. split.
  - intros p Hp. apply map_lookup_filter_None_2. right. intros x _.
    cbn. congruence.
  - intros p Hp Hout Htemp. rewrite <- H1, <- H2, <- (H3 p Hp Hout Htemp).
    destruct (fs wb !! p) as [x|] eqn:Hx.
    + apply map_lookup_filter_Some_2; [exact Hx|exact Hp].
    + apply map_lookup_filter_None_2. now left.
Qed.

Lemma main_leaves_only_the_video_witness :
  let w' := (main example_lanczos example_repr example_env
               (example_args 1080 1920) (initial example_files)).1 in
  fs w' !! "/tmp/t/work/frames/frame_00001.png" = None /\
  fs w' !! "/pages/1.png" = example_files !! "/pages/1.png".
Proof.
  destruct (main_leaves_only_the_video example_lanczos example_repr
              example_env (example_args 1080 1920) (initial example_files))
    as [Htmp Hkeep].
  - intros p Hp. unfold initial, example_files. cbn [fs].
    rewrite !lookup_insert_ne; [apply lookup_empty|..];
      intros <-; discriminate Hp.
  - split; [apply Htmp; reflexivity|].
    apply Hkeep; [reflexivity|discriminate..].
Defined.

(** ** Rounding from below, and the cover fit *)

Local Open Scope Q_scope.









Local Close Scope Q_scope.




(** ** Decimal texts read back *)

Lemma digits_value_app (a b : string) (acc : Z) :
  digits_value (a ++ b) acc = digits_value b (digits_value a acc).
Proof.
  revert acc. induction a as [|c a IH]; intros acc; [reflexivity|].
  rewrite string_app_cons. cbn [digits_value]. apply IH.
Qed.

Lemma digits_value_digits (n : Z) :
  0 <= n -> digits_value (Str.digits n) 0 = n.
Proof.
  induction n as [n IH] using (well_founded_induction (Z.lt_wf 0)).
  intros Hn. destruct (Z_lt_ge_dec n 10) as [Hlt|Hge].
  - rewrite digits_small by lia. cbn [digits_value].
    rewrite digit_char_value by lia. lia.
  - rewrite digits_step by lia. rewrite digits_value_app.
    rewrite (IH (n / 10)) by lia.
    cbn [digits_value]. rewrite digit_char_value by lia. lia.
Qed.

Lemma format_05d_value (n : Z) :
  0 <= n -> digits_value (Str.format_05d n) 0 = n.
Proof.
  intros Hn. unfold Str.format_05d.
  replace (n <? 0)%Z with false by (symmetry; apply Z.ltb_ge; lia).
  cbv zeta. rewrite digits_value_zeros. now apply digits_value_digits.
Qed.

(** X15: The decimal text of an int that is not negative reads back as that
    int, with or without the padding of the five-digit field: the [d]
    written into the expressions and the index written into a frame name
    are the numbers the program computed, at any size. *)
Theorem decimal_text_reads_back (n : Z) :
  0 <= n ->
  digits_value (Str.of_int n) 0 = n /\
  digits_value (Str.format_05d n) 0 = n.
Proof.
  intros Hn. split; [|now apply format_05d_value].
  unfold Str.of_int.
  replace (n <? 0)%Z with false by (symmetry; apply Z.ltb_ge; lia).
  now apply digits_value_digits.
Qed.

Lemma decimal_text_witness :
  digits_value (Str.of_int 123456) 0 = 123456 /\
  digits_value (Str.format_05d 123456) 0 = 123456.
Proof. apply (decimal_text_reads_back 123456). lia. Defined.

Lemma string_app_inv_tail (a b c : string) : a ++ c = b ++ c -> a = b.
Proof.
  revert b. induction a as [|x a IH]; intros [|y b] H.
  - reflexivity.
  - exfalso. apply (f_equal String.length) in H.
    rewrite !string_length_app in H. cbn in H. lia.
  - exfalso. apply (f_equal String.length) in H.
    rewrite !string_length_app in H. cbn in H. lia.
  - rewrite !string_app_cons in H. injection H as -> H. f_equal. now apply IH.
Qed.

(** X16: Two images never get the same frame file, however many there are:
    different indices give different frame paths, also beyond the five
    digits of the name. *)
Theorem frame_names_never_collide (frames_dir : string) (i j : Z) :
  0 <= i -> 0 <= j -> i <> j ->
  frame_path frames_dir i <> frame_path frames_dir j.
Proof.
  intros Hi Hj Hne Heq. apply Hne.
  unfold frame_path, Str.path_join, frame_name in Heq.
  apply string_app_inv_head in Heq. apply string_app_inv_head in Heq.
  apply string_app_inv_head in Heq. apply string_app_inv_tail in Heq.
  rewrite <- (format_05d_value i Hi), <- (format_05d_value j Hj).
  now rewrite Heq.
Qed.

Lemma frame_names_never_collide_witness :
  frame_path "/tmp/t/work/frames" 99999 <> frame_path "/tmp/t/work/frames" 100000.
Proof.
  apply (frame_names_never_collide "/tmp/t/work/frames" 99999 100000); lia.
Defined.

(** ** Where the window goes *)

Lemma pan_exprs_other (pan : string) :
  ~ is_direction pan -> pan_exprs pan = pan_exprs "center".
Proof.
  intros H. unfold is_direction in H. unfold pan_exprs.
  destruct (String.eqb_spec pan "left"); [tauto|].
  destruct (String.eqb_spec pan "right"); [tauto|].
  destruct (String.eqb_spec pan "up"); [tauto|].
  destruct (String.eqb_spec pan "down"); [tauto|].
  reflexivity.
Qed.

Lemma window_at_centre (iw ih : Q) (d : Z) (zoom_target : Q) (on : Z) :
  window_at "center" iw ih d zoom_target on =
  Some (centred_at iw (zoom_curve d zoom_target on),
        centred_at ih (zoom_curve d zoom_target on)).
Proof.
  pose proof parse_pan_exprs as (_ & _ & _ & _ & Hc).
  unfold window_at, eval_text. rewrite zoom_at_curve. cbn [mbind option_bind].
  destruct Hc as [-> ->]. reflexivity.
Qed.


Local Open Scope Q_scope.

(** X17: Any pan value other than left, right, up and down (so [center])
    keeps the window centred at every frame: its corner is
    [(iw/2-(iw/zoom)/2, ih/2-(ih/zoom)/2)], its centre the centre of the
    frame. *)
Theorem pan_other_than_a_direction_is_centred
    (pan : string) (iw ih : Q) (d : Z) (zoom_target : Q) (on : Z) :
  ~ is_direction pan ->
  exists x y,
    window_at pan iw ih d zoom_target on = Some (x, y) /\
    x + iw / zoom_curve d zoom_target on / 2 == iw / 2 /\
    y + ih / zoom_curve d zoom_target on / 2 == ih / 2.
Proof.
  intros Hp. do 2 eexists. split.
  - unfold window_at. rewrite (pan_exprs_other pan Hp).
    apply window_at_centre.
  - unfold centred_at. split; ring.
Qed.

Lemma pan_other_witness :
  exists x y,
    window_at "diagonal" 1080 1920 90 (28 # 25) 45 = Some (x, y) /\
    x + 1080 / zoom_curve 90 (28 # 25) 45 / 2 == 1080 / 2 /\
    y + 1920 / zoom_curve 90 (28 # 25) 45 / 2 == 1920 / 2.
Proof.
  apply (pan_other_than_a_direction_is_centred "diagonal" 1080 1920 90
           (28 # 25) 45).
  unfold is_direction. intros [H | [H | [H | H]]]; discriminate H.
Defined.




Local Close Scope Q_scope.

Local Open Scope Q_scope.




Local Close Scope Q_scope.

Local Open Scope Q_scope.




Local Close Scope Q_scope.

(** ** A duration that is not a number *)





(** ** A run that succeeds *)






